(** * Geometric Brownian Motion / GBM_ABM.py: the path generator

    A shallow embedding of [GeneratePaths] and of the NumPy and Python
    operations it calls, followed by the properties of the simulated paths.

    Numbers.  A Python float and a NumPy float64 are IEEE 754 binary64
    numbers: they are Rocq's primitive floats here, whose sum, difference,
    product, quotient and square root are the correctly rounded binary64
    operations.  So sums round, products underflow and overflow, and a
    division by zero in NumPy gives inf or nan with a warning only, while
    Python's own [/] raises [ZeroDivisionError] and Python's [**] raises
    [OverflowError].  [NPaths] and [NSteps] are Python integers; [T], [r],
    [sigma] and [S_0] are Python floats.

    Arrays.  A one-dimensional array is a list, of any length: the memory
    that NumPy can allocate is not bounded.  [GeneratePaths] reads and writes
    its matrices one whole column at a time ([X[:,i]], [Z[:,i]]), so a matrix
    is stored as the list of its columns; [entry M p j] is [M[p,j]].

    Platform.  What lives outside the repository and outside IEEE 754 is a
    parameter, gathered in the class [Platform]: the state of NumPy's global
    generator with its seeding function and its sampler of one standard normal
    variate, the order in which NumPy's [add.reduce] sums an array, and the
    elementary functions [log], [exp] and [pow] of NumPy and of the C library,
    which are not correctly rounded and differ between builds.  The theorems
    hold for every platform.  [glibc_mt19937] is the platform of the runs at
    the end of the file: it tabulates the variates that the Mersenne Twister
    seeded with 72 produces and the values of the elementary functions at the
    arguments those runs evaluate. *)

From Stdlib Require Import ZArith Lia Floats.
From stdpp Require Import base list.

(** ** Binary64 numbers *)

#[global] Instance float_inhabited : Inhabited float := populate nan.

(** The float nearest to the integer [n], ties to even; infinite when [n]
    is out of range. *)
Definition float_of_Z (n : Z) : float :=
  SF2Prim (binary_normalize prec emax n 0 false).

(** Python's [float(n)] converts exactly up to [2 ^ 53]. *)
Definition max_exact_int : Z := 2 ^ 53.

(** A NaN or an infinity, read off the representation. *)
Definition nonfinite (x : float) : Prop :=
  Prim2SF x = S754_nan ∨ ∃ s, Prim2SF x = S754_infinity s.

(** A zero of either sign. *)
Definition zero_float (x : float) : Prop := ∃ s, Prim2SF x = S754_zero s.

(** The zero with the sign bit set, [-0.0]. *)
Definition negative_zero (x : float) : Prop := Prim2SF x = S754_zero true.

(** Equal, or two zeros that differ in sign only. *)
Definition same_value (x y : float) : Prop :=
  x = y ∨ (zero_float x ∧ zero_float y).

(** ** Arrays and the result bundle *)

(** A matrix, as the list of its columns. *)
Abbreviation matrix := (list (list float)) (only parsing).

(** The local variables [Z], [X] and [time] of [GeneratePaths]. *)
Abbreviation locals := (matrix * matrix * list float)%type (only parsing).

(** [M[p,j]]: row [p] of column [j]. *)
Definition entry (m : matrix) (p j : nat) : option float :=
  col ← m !! j; col !! p.

(** [m] has [nrows] rows and [ncols] columns. *)
Definition has_shape (m : matrix) (nrows ncols : nat) : Prop :=
  length m = ncols ∧ ∀ col, col ∈ m → length col = nrows.

(** The dictionary [{"time": time, "X": X, "S": S}] that [GeneratePaths]
    returns. *)
Record paths : Type := Paths {
  paths_time : list float;
  paths_X : matrix;
  paths_S : matrix;
}.

(** The exceptions that the operations used here can raise. *)
Inductive exn : Type :=
  | ValueError
  | ZeroDivisionError
  | IndexError
  | OverflowError.

(** ** The platform *)

Class Platform : Type := {
  (** the state of NumPy's global generator *)
  rng : Type;
  (** the state that [np.random.seed(n)] installs *)
  seed : Z → rng;
  (** one standard normal variate, and the state after the draw *)
  gauss : rng → float * rng;
  (** [np.add.reduce] over a one-dimensional float64 array *)
  add_reduce : list float → float;
  (** NumPy's [log], [exp] and [power] on one float64 *)
  npy_log : float → float;
  npy_exp : float → float;
  npy_pow : float → float → float;
  (** the C library's [pow], which Python's float [**] calls *)
  libm_pow : float → float → float;
}.

(** A function given by a table of arguments and values; NaN elsewhere. *)
Fixpoint tabulated (t : list (float * float)) (x : float) : float :=
  match t with
  | [] => nan
  | (a, v) :: t' => if (a =? x)%float then v else tabulated t' x
  end.

Fixpoint tabulated2 (t : list (float * float * float)) (x y : float) : float :=
  match t with
  | [] => nan
  | (a, b, v) :: t' =>
      if ((a =? x) && (b =? y))%float then v else tabulated2 t' x y
  end.

(** ** The platform of the runs

    The first twenty standard normal variates that NumPy's legacy generator
    (the Mersenne Twister MT19937 with the polar Box-Muller sampler) draws after
    [np.random.seed(72)], in the order of the draws.  A decimal constant
    denotes the nearest binary64 number, as in Python. *)
Set Warnings "-inexact-float".
Local Open Scope float_scope.

Definition mt19937_72 : list float :=
  [0.3185454990658182;
   (-0.6795594345054096);
   (-2.208388469496472);
   0.5902401627575674;
   1.6747660437710312;
   (-1.6659559731443025);
   (-0.824338737350097);
   0.5452603422370825;
   0.0011861931811615537;
   (-0.7570305222656913);
   0.6295451918578664;
   (-0.09563176552283076);
   (-1.5078606496955647);
   (-0.5000130153267721);
   1.714010272510464;
   (-1.2237672650612037);
   1.3959050835586024;
   0.4144763431240913;
   1.5196667669398751;
   1.3900634040067326].

(** The values of the elementary functions at the arguments that the runs
    evaluate, as the C library (glibc, x86-64) returns them, each argument
    followed by its value. *)
Definition glibc_log : list (float * float) :=
  [(100, 4.605170185988092);
   (1, 0);
   ((-1), nan);
   (0, neg_infinity)].

Definition glibc_exp : list (float * float) :=
  [(4.605170185988092, 100.00000000000004);
   (4.364230078312242, 78.5888693679235);
   (4.123289970636392, 61.76210388528541);
   (3.882349862960542, 48.538139141288106);
   (4.826110293663942, 124.72487277019287);
   (5.047050401339792, 155.56293887540792);
   (5.267990509015642, 194.02567758992535);
   (4.475679079581356, 87.85424017802892);
   (4.3461879731746205, 77.18367517258788);
   (4.216696866767885, 67.809131364355);
   (4.34018797317462, 76.72195965325605);
   (4.210696866767885, 67.403494703062);
   (4.081205760361149, 59.216828124813055);
   (3.9517146539544137, 52.02449440658384);
   (4.075205760361149, 58.86259093035847);
   (3.9457146539544135, 51.7132820109678);
   (3.8162235475476782, 45.43231098185708);
   (4.728661292394827, 113.14399419306861);
   (4.852152398801563, 128.01563421961137);
   (4.975643505208298, 144.84200174765698);
   (4.8461523988015625, 127.24984009405135);
   (4.969643505208298, 143.9755516867025);
   (5.093134611615033, 162.8996898398411);
   (5.216625718021769, 184.3112156129165);
   (5.087134611615033, 161.92521803961634);
   (5.2106257180217685, 183.2086592958571);
   (5.334116824428504, 207.2895948349033);
   (4.630170185988092, 102.53151205244296);
   (4.6551701859880925, 105.12710963760253);
   (0, 1);
   ((-10000), 0);
   (neg_infinity, 0);
   (4.680268458990449, 107.79900830013811);
   (4.4730600252472215, 87.62444620232748)].

Definition glibc_pow : list (float * float * float) :=
  [(0.4, 2, 0.16000000000000003);
   (0.3333333333333333, 0.5, 0.5773502691896257);
   (0.1, 0.5, 0.31622776601683794);
   (0.5, 0.5, 0.7071067811865476);
   (1, 0.5, 1);
   (1e200, 2, infinity);
   ((-1), 0.5, nan);
   (0, 0.5, 0)].

Local Close Scope float_scope.

(** The generator state is the number of variates drawn since the seeding
    with 72, the only seed that [GeneratePaths] uses and that is tabulated.
    NumPy adds an array of fewer than eight elements in index order. *)
Definition glibc_mt19937 : Platform := {|
  rng := option nat;
  seed := λ n, if decide (n = 72)%Z then Some 0 else None;
  gauss := λ s, match s with
                | Some k => (mt19937_72 !!! k, Some (S k))
                | None => (nan, None)
                end;
  add_reduce := foldl PrimFloat.add 0%float;
  npy_log := tabulated glibc_log;
  npy_exp := tabulated glibc_exp;
  npy_pow := tabulated2 glibc_pow;
  libm_pow := tabulated2 glibc_pow;
|}.

(** A generator that was never seeded. *)
Definition unseeded : rng (Platform:=glibc_mt19937) := None.

(** ** The path generator *)

Section GeneratePaths.
Context {platform : Platform}.

(** A computation reads and writes the generator state and either raises
    or returns.  The state survives an exception. *)
Definition M (A : Type) : Type := rng → (exn + A) * rng.

#[local] Instance M_ret : MRet M := λ A a s, (inr a, s).
#[local] Instance M_bind : MBind M := λ A B k m s,
  match m s with
  | (inl e, s') => (inl e, s')
  | (inr a, s') => k a s'
  end.

Definition raise {A} (e : exn) : M A := λ s, (inl e, s).

(** An operation that does not touch the generator. *)
Definition lift {A} (x : exn + A) : M A := λ s, (x, s).

(** [np.random.seed(n)]: the seed must fit in 32 bits. *)
Definition np_random_seed (n : Z) : M unit :=
  if decide (0 ≤ n < 2 ^ 32)%Z then λ _, (inr (), seed n)
  else raise ValueError.

(** [n] successive variates. *)
Fixpoint gauss_n (n : nat) (s : rng) : list float * rng :=
  match n with
  | 0 => ([], s)
  | S n' => let '(g, s1) := gauss s in
            let '(gs, s2) := gauss_n n' s1 in
            (g :: gs, s2)
  end.

(** The matrix with [nrows] rows and [ncols] columns filled in C order
    (row after row) from the flat list [gs], each variate scaled and
    shifted: [loc + scale * g]. *)
Definition fill_col (loc scale : float) (nrows ncols : nat) (gs : list float)
    (j : nat) : list float :=
  (λ p, (loc + scale * (gs !!! (p * ncols + j)%nat))%float) <$> seq 0 nrows.

Definition fill_normal (loc scale : float) (nrows ncols : nat)
    (gs : list float) : matrix :=
  fill_col loc scale nrows ncols gs <$> seq 0 ncols.

(** [np.random.normal(loc, scale, [d0, d1])]: a negative dimension is a
    [ValueError]; otherwise [d0 * d1] variates are drawn. *)
Definition np_random_normal (loc scale : float) (d0 d1 : Z) : M matrix :=
  if decide (d0 < 0 ∨ d1 < 0)%Z then raise ValueError
  else λ s,
    let '(gs, s') := gauss_n (Z.to_nat d0 * Z.to_nat d1) s in
    (inr (fill_normal loc scale (Z.to_nat d0) (Z.to_nat d1) gs), s').

(** [np.zeros([d])] and [np.zeros([d0, d1])]. *)
Definition np_zeros1 (d : Z) : M (list float) :=
  if decide (d < 0)%Z then raise ValueError
  else mret (replicate (Z.to_nat d) 0%float).

Definition np_zeros2 (d0 d1 : Z) : M matrix :=
  if decide (d0 < 0 ∨ d1 < 0)%Z then raise ValueError
  else mret (replicate (Z.to_nat d1) (replicate (Z.to_nat d0) 0%float)).

(** [np.log(x)] and [np.power(x, y)] on scalars, [np.exp(M)] element by
    element. *)
Definition np_log (x : float) : float := npy_log x.

Definition np_power (x y : float) : float := npy_pow x y.

Definition np_exp (m : matrix) : matrix :=
  (λ col : list float, npy_exp <$> col) <$> m.

(** [np.mean(a)]: the sum over the number of elements. *)
Definition np_mean (a : list float) : float :=
  (add_reduce a / float_of_Z (Z.of_nat (length a)))%float.

(** [np.std(a)] with the default [ddof=0]: the deviations from the mean
    are squared and summed, and the square root of the sum over the number of
    elements is taken. *)
Definition np_std (a : list float) : float :=
  let arrmean := np_mean a in
  let x := (λ v, ((v - arrmean) * (v - arrmean))%float) <$> a in
  PrimFloat.sqrt (add_reduce x / float_of_Z (Z.of_nat (length a))).

(** The right-hand side of line 28,
    [(Z[:,i] - np.mean(Z[:,i])) / np.std(Z[:,i])]. *)
Definition standardize (col : list float) : list float :=
  (λ y, (y / np_std col)%float) <$> ((λ z, (z - np_mean col)%float) <$> col).

(** [a[i]] and [M[:,j]], for a non-negative index. *)
Definition getitem {A} (a : list A) (i : nat) : M A :=
  match a !! i with
  | Some x => mret x
  | None => raise IndexError
  end.

(** [a[i] = v] *)
Definition setitem {A} (a : list A) (i : nat) (v : A) : M (list A) :=
  if decide (i < length a) then mret (<[i:=v]> a) else raise IndexError.

(** Broadcasting a one-dimensional array to length [n]: the lengths
    agree, or the array has one element, which is repeated. *)
Definition broadcast_to (n : nat) (v : list float) : M (list float) :=
  if decide (length v = n) then mret v
  else match v with
       | [x] => mret (replicate n x)
       | _ => raise ValueError
       end.

(** [M[:,j] = v] for an array [v], and for a scalar [x]. *)
Definition setcol (m : matrix) (j : nat) (v : list float) : M matrix :=
  match m !! j with
  | None => raise IndexError
  | Some old => v' ← broadcast_to (length old) v; mret (<[j:=v']> m)
  end.

Definition setcol_scalar (m : matrix) (j : nat) (x : float) : M matrix :=
  match m !! j with
  | None => raise IndexError
  | Some old => mret (<[j:=replicate (length old) x]> m)
  end.

(** [a + b] for two one-dimensional arrays, with broadcasting. *)
Definition arr_add (a b : list float) : M (list float) :=
  if decide (length a = length b) then mret (zip_with PrimFloat.add a b)
  else match a, b with
       | [x], _ => mret (PrimFloat.add x <$> b)
       | _, [y] => mret ((λ x, (x + y)%float) <$> a)
       | _, _ => raise ValueError
       end.

(** [float(n)] for a Python integer: the nearest float, and an
    [OverflowError] when [n] is too large to have one. *)
Definition py_float (n : Z) : exn + float :=
  let x := float_of_Z n in
  if is_infinity x then inl OverflowError else inr x.

(** Python's [a / b] on floats. *)
Definition py_truediv (a b : float) : exn + float :=
  if (b =? 0)%float then inl ZeroDivisionError else inr (a / b)%float.

(** Python's [iv ** 2] on a float: CPython's [float_pow] with the exponent
    2.0, in the order of its tests.  A NaN is returned as it is, an infinity
    without its sign, and a zero gives 0.0; a negative base is replaced by its
    absolute value, the exponent being an even integer; 1.0 gives 1.0; every
    other base goes to the C library's [pow], and an infinite result there is
    the range error that becomes [OverflowError]. *)
Definition float_pow2 (iv : float) : exn + float :=
  if is_nan iv then inr iv
  else if is_infinity iv then inr (abs iv)
  else if (iv =? 0)%float then inr 0%float
  else
    let iv := if (iv <? 0)%float then (- iv)%float else iv in
    if (iv =? 1)%float then inr 1%float
    else
      let ix := libm_pow iv 2 in
      if is_infinity ix then inl OverflowError else inr ix.

(** [for i in idx: st = body(i, st)] *)
Fixpoint for_each {St} (idx : list nat) (body : nat → St → M St) (st : St)
  : M St :=
  match idx with
  | [] => mret st
  | i :: idx' => st' ← body i st; for_each idx' body st'
  end.

(** Lines 26 to 30: one turn of the loop.  Line 29 reads [X[:,i]], raises
    [sigma] to the power 2, and reads [Z[:,i]] last; its sum associates to
    the left. *)
Definition loop_body (NPaths : Z) (r sigma dt : float) (i : nat)
    (st : locals) : M locals :=
  let '(Zm, Xm, time) := st in
  Zm ← (if decide (NPaths > 1)%Z then
          Zi ← getitem Zm i;
          setcol Zm i (standardize Zi)
        else mret Zm);
  Xi ← getitem Xm i;
  sigma2 ← lift (float_pow2 sigma);
  let drift := ((r - 0.5 * sigma2) * dt)%float in
  let vol := (sigma * np_power dt 0.5)%float in
  Zi ← getitem Zm i;
  new ← arr_add ((λ x, (x + drift)%float) <$> Xi) (PrimFloat.mul vol <$> Zi);
  Xm ← setcol Xm (i + 1) new;
  ti ← getitem time i;
  time ← setitem time (i + 1) (ti + dt)%float;
  mret (Zm, Xm, time).

(** Lines 17 to 30: the local variables when the loop ends. *)
Definition GeneratePaths_locals (NPaths NSteps : Z) (T r sigma S_0 : float)
  : M locals :=
  np_random_seed 72;;
  Zm ← np_random_normal 0 1 NPaths NSteps;
  Xm ← np_zeros2 NPaths (NSteps + 1);
  time ← np_zeros1 (NSteps + 1);
  Xm ← setcol_scalar Xm 0 (np_log S_0);
  n ← lift (py_float NSteps);
  dt ← lift (py_truediv T n);
  for_each (seq 0 (Z.to_nat NSteps)) (loop_body NPaths r sigma dt)
    (Zm, Xm, time).

Definition GeneratePaths (NPaths NSteps : Z) (T r sigma S_0 : float)
  : M paths :=
  st ← GeneratePaths_locals NPaths NSteps T r sigma S_0;
  let '(_, Xm, time) := st : locals in
  let Sm := np_exp Xm in
  mret (Paths time Xm Sm).

(** ** The loop, unrolled

    The values that the loop of [GeneratePaths] leaves in [Z], [X] and
    [time], written as functions of the column index. *)

(** Column [j] of the matrix drawn on line 18. *)
Definition drawn_col (NPaths NSteps : Z) (j : nat) : list float :=
  fill_col 0 1 (Z.to_nat NPaths) (Z.to_nat NSteps)
    (gauss_n (Z.to_nat NPaths * Z.to_nat NSteps) (seed 72)).1 j.

(** Column [j] of [Z] as line 29 reads it: standardized when there is more
    than one path. *)
Definition used_col (NPaths NSteps : Z) (j : nat) : list float :=
  if decide (NPaths > 1)%Z then standardize (drawn_col NPaths NSteps j)
  else drawn_col NPaths NSteps j.

(** [dt] of line 24. *)
Definition step_size (T : float) (NSteps : Z) : float :=
  (T / float_of_Z NSteps)%float.

(** The two scalars of line 29, [(r - 0.5 * sigma ** 2) * dt] and
    [sigma * np.power(dt, 0.5)], where [sigma2] is the value of
    [sigma ** 2]. *)
Definition drift (r sigma2 dt : float) : float :=
  ((r - 0.5 * sigma2) * dt)%float.

Definition vol (sigma dt : float) : float :=
  (sigma * np_power dt 0.5)%float.

(** Column [j] of [X]. *)
Fixpoint X_col (NPaths NSteps : Z) (r sigma sigma2 dt S_0 : float) (j : nat)
  : list float :=
  match j with
  | 0 => replicate (Z.to_nat NPaths) (np_log S_0)
  | S j' =>
      zip_with PrimFloat.add
        ((λ x, (x + drift r sigma2 dt)%float)
           <$> X_col NPaths NSteps r sigma sigma2 dt S_0 j')
        (PrimFloat.mul (vol sigma dt) <$> used_col NPaths NSteps j')
  end.

(** [time[j]] *)
Fixpoint time_at (dt : float) (j : nat) : float :=
  match j with
  | 0 => 0%float
  | S j' => (time_at dt j' + dt)%float
  end.

(** The local variables after [k] turns of the loop. *)
Definition loop_state (NPaths NSteps : Z) (r sigma sigma2 dt S_0 : float)
    (k : nat) : locals :=
  ((λ j, if decide (j < k) then used_col NPaths NSteps j
         else drawn_col NPaths NSteps j) <$> seq 0 (Z.to_nat NSteps),
   (λ j, if decide (j ≤ k) then X_col NPaths NSteps r sigma sigma2 dt S_0 j
         else replicate (Z.to_nat NPaths) 0%float)
     <$> seq 0 (Z.to_nat (NSteps + 1)),
   (λ j, if decide (j ≤ k) then time_at dt j else 0%float)
     <$> seq 0 (Z.to_nat (NSteps + 1))).

(** The generator state that a call leaves behind. *)
Definition rng_after (NPaths NSteps : Z) : rng :=
  (gauss_n (Z.to_nat NPaths * Z.to_nat NSteps) (seed 72)).2.

(** The bundle that a call returns when it returns. *)
Definition result (NPaths NSteps : Z) (T r sigma sigma2 S_0 : float)
  : paths :=
  let dt := step_size T NSteps in
  let Xm := X_col NPaths NSteps r sigma sigma2 dt S_0
              <$> seq 0 (Z.to_nat (NSteps + 1)) in
  Paths (time_at dt <$> seq 0 (Z.to_nat (NSteps + 1))) Xm (np_exp Xm).

(** A computation that leaves the generator as it finds it. *)
Definition pure {A} (m : M A) : Prop := ∀ s, (m s).2 = s.

(** ** The sizes for which the loop runs

    At least one step, and few enough for [float(NSteps)] to be exact: the
    quotient of line 24 is then defined.  (Past [2 ^ 1024] steps [float]
    raises [OverflowError].) *)
Definition valid_steps (NSteps : Z) : Prop :=
  (1 ≤ NSteps < max_exact_int)%Z.

(** ** Reading the result, as [PlotDistribution] does

    Python's index [i] into a sequence of length [n]: a negative index counts
    from the end, and an index outside [-n .. n-1] is an [IndexError]. *)
Definition py_index (n : nat) (i : Z) : option nat :=
  if decide (0 ≤ i < Z.of_nat n)%Z then Some (Z.to_nat i)
  else if decide (- Z.of_nat n ≤ i < 0)%Z
       then Some (Z.to_nat (Z.of_nat n + i))
  else None.

(** [M[:,i]] for an integer index of either sign; [PlotDistribution] reads
    [X[:,-1]] and [S[:,-1]]. *)
Definition getcol_at (m : matrix) (i : Z) : M (list float) :=
  match py_index (length m) i with
  | Some j => getitem m j
  | None => raise IndexError
  end.

(** The path without volatility: [np.log(S_0)], advanced by [r * dt] at
    each step. *)
Fixpoint drift_path (r dt S_0 : float) (j : nat) : float :=
  match j with
  | 0 => np_log S_0
  | S j' => (drift_path r dt S_0 j' + r * dt)%float
  end.

End GeneratePaths.

(** ** Facts of binary64 arithmetic *)

Section Binary64.

Lemma Prim2SF_zero : Prim2SF 0 = S754_zero false.
Proof. reflexivity. Qed.

Lemma Prim2SF_infinity : Prim2SF infinity = S754_infinity false.
Proof. reflexivity. Qed.

Lemma SFcompare_refl s m e :
  SFcompare (S754_finite s m e) (S754_finite s m e) = Some Eq.
Proof.
  simpl. destruct s; rewrite Z.compare_refl, Pos.compare_cont_refl; done.
Qed.

Lemma is_nan_spec x : is_nan x = true ↔ Prim2SF x = S754_nan.
Proof.
  unfold is_nan. rewrite FloatAxioms.eqb_spec. unfold SFeqb.
  destruct (Prim2SF x) as [s|s| |s m e] eqn:Hx.
  - simpl. split; done.
  - destruct s; simpl; split; done.
  - simpl. split; done.
  - rewrite SFcompare_refl. simpl. split; done.
Qed.

Lemma is_infinity_spec x :
  is_infinity x = true ↔ ∃ s, Prim2SF x = S754_infinity s.
Proof.
  unfold is_infinity. rewrite FloatAxioms.eqb_spec, abs_spec, Prim2SF_infinity.
  unfold SFeqb.
  destruct (Prim2SF x) as [s|s| |s m e] eqn:Hx; simpl.
  - split; [done|]. by intros [? ?].
  - split; [by eexists|done].
  - split; [done|]. by intros [? ?].
  - split; [done|]. by intros [? ?].
Qed.

Lemma is_finite_false x : is_finite x = false ↔ nonfinite x.
Proof.
  unfold is_finite, nonfinite.
  rewrite negb_false_iff, orb_true_iff, is_nan_spec, is_infinity_spec. done.
Qed.

Lemma is_finite_true x :
  is_finite x = true →
  zero_float x ∨ ∃ s m e, Prim2SF x = S754_finite s m e.
Proof.
  intros Hf. destruct (Prim2SF x) as [s|s| |s m e] eqn:Hx.
  - left. by exists s.
  - assert (is_finite x = false) as Hn; [|congruence].
    apply is_finite_false. right. by exists s.
  - assert (is_finite x = false) as Hn; [|congruence].
    apply is_finite_false. by left.
  - right. by exists s, m, e.
Qed.

Lemma eqb_zero_spec x : (x =? 0)%float = true ↔ zero_float x.
Proof.
  rewrite FloatAxioms.eqb_spec, Prim2SF_zero. unfold SFeqb, zero_float.
  destruct (Prim2SF x) as [s|s| |s m e] eqn:Hx; simpl.
  - split; [by eexists|done].
  - destruct s; (split; [done|]; by intros [? ?]).
  - split; [done|]. by intros [? ?].
  - destruct s; (split; [done|]; by intros [? ?]).
Qed.

(** *** NaN and the infinities are absorbing *)





Lemma Prim2SF_nan x : Prim2SF x = S754_nan → x = nan.
Proof. intros Hx. by apply Prim2SF_inj. Qed.

Lemma add_nan_r x : (x + nan)%float = nan.
Proof.
  apply Prim2SF_inj. rewrite add_spec. change (Prim2SF nan) with S754_nan.
  unfold SF64add, SFadd. by destruct (Prim2SF x).
Qed.

Lemma add_nan_l x : (nan + x)%float = nan.
Proof. apply Prim2SF_inj. by rewrite add_spec. Qed.

Lemma mul_nan_l x : (nan * x)%float = nan.
Proof. apply Prim2SF_inj. by rewrite mul_spec. Qed.

Lemma mul_nan_r x : (x * nan)%float = nan.
Proof.
  apply Prim2SF_inj. rewrite mul_spec. change (Prim2SF nan) with S754_nan.
  unfold SF64mul, SFmul. by destruct (Prim2SF x).
Qed.

(** *** Zeros *)

Lemma sub_zero_r x : (x - 0)%float = x.
Proof.
  apply Prim2SF_inj. rewrite sub_spec, Prim2SF_zero. unfold SF64sub, SFsub.
  destruct (Prim2SF x) as [s|s| |s m e]; try done. by destruct s.
Qed.

Lemma mul_zero_l x y :
  zero_float x → is_finite y = true → zero_float (x * y).
Proof.
  unfold zero_float. intros [sx Hx] Hy. rewrite mul_spec, Hx.
  unfold SF64mul, SFmul.
  destruct (is_finite_true y Hy) as [[sy ->]|(sy & m & e & ->)]; by eexists.
Qed.

Lemma add_zero_r y z : zero_float z → same_value (y + z) y.
Proof.
  unfold same_value, zero_float. intros [sz Hz].
  destruct (Prim2SF y) as [s|s| |s m e] eqn:Hy.
  - right. split; [|by eexists]. rewrite add_spec, Hy, Hz.
    unfold SF64add, SFadd. destruct s, sz; by eexists.
  - left. apply Prim2SF_inj. by rewrite add_spec, Hy, Hz.
  - left. apply Prim2SF_inj. by rewrite add_spec, Hy, Hz.
  - left. apply Prim2SF_inj. by rewrite add_spec, Hy, Hz.
Qed.

Lemma add_same_value x x' d :
  same_value x x' → same_value (x + d) (x' + d).
Proof.
  unfold same_value, zero_float. intros [->|[[s Hx] [s' Hx']]]; [by left|].
  destruct (Prim2SF d) as [sd|sd| |sd m e] eqn:Hd.
  - right. rewrite !add_spec, Hx, Hx', Hd. unfold SF64add, SFadd.
    split; [destruct s, sd|destruct s', sd]; by eexists.
  - left. apply Prim2SF_inj. by rewrite !add_spec, Hx, Hx', Hd.
  - left. apply Prim2SF_inj. by rewrite !add_spec, Hx, Hx', Hd.
  - left. apply Prim2SF_inj. by rewrite !add_spec, Hx, Hx', Hd.
Qed.

Lemma same_value_refl x : same_value x x.
Proof. by left. Qed.

Lemma same_value_trans x y z :
  same_value x y → same_value y z → same_value x z.
Proof.
  unfold same_value. intros [->|[Hx Hy]] [->|[Hy' Hz]]; auto.
Qed.

(** *** The conversion of an integer *)

Lemma digits2_pos_size p : digits2_pos p = Pos.size p.
Proof. induction p; simpl; congruence. Qed.

Lemma digits2_pos_iter p k :
  digits2_pos (Pos.iter xO p k) = (digits2_pos p + k)%positive.
Proof.
  induction k as [|k IH] using Pos.peano_ind.
  - simpl. lia.
  - rewrite Pos.iter_succ. simpl. rewrite IH. lia.
Qed.

Lemma digits2_pos_bound p :
  (Z.pos p < 2 ^ 53)%Z → (Z.pos (digits2_pos p) ≤ 53)%Z.
Proof.
  rewrite digits2_pos_size. intros Hp.
  pose proof (Pos.size_le p) as Hle.
  apply Pos2Z.pos_le_pos in Hle. rewrite Pos2Z.inj_pow in Hle.
  change (Z.pos p~0) with (2 * Z.pos p)%Z in Hle.
  assert (2 ^ Z.pos (Pos.size p) < 2 ^ 54)%Z as Hlt.
  { change (2 ^ 54)%Z with (2 * 2 ^ 53)%Z. lia. }
  apply Z.pow_lt_mono_r_iff in Hlt; lia.
Qed.

(** Rounding a mantissa that already has its canonical exponent changes
    nothing. *)
Lemma binary_round_aux_canonical s m e :
  fexp prec emax (Z.pos (digits2_pos m) + e) = e → (e ≤ emax - prec)%Z →
  binary_round_aux prec emax s (Z.pos m) e loc_Exact = S754_finite s m e.
Proof.
  intros Hc He. unfold binary_round_aux, shr_fexp.
  cbn [Zdigits2 shr_record_of_loc]. rewrite Hc, Z.sub_diag.
  cbn [shr shr_m loc_of_shr_record round_nearest_even Zdigits2
       shr_record_of_loc].
  rewrite Hc, Z.sub_diag. cbn [shr shr_m].
  by rewrite Zle_imp_le_bool.
Qed.

(** A positive integer below [2 ^ 53] converts to a positive finite
    float. *)
Lemma float_of_Z_exact n :
  (1 ≤ n < max_exact_int)%Z →
  ∃ m e, Prim2SF (float_of_Z n) = S754_finite false m e.
Proof.
  unfold max_exact_int. intros Hn. destruct n as [|p|p]; try lia.
  pose proof (digits2_pos_bound p) as Hd. unfold float_of_Z.
  assert (∃ m e, binary_normalize prec emax (Z.pos p) 0 false
                 = S754_finite false m e
                 ∧ valid_binary (S754_finite false m e) = true)
    as (m & e & -> & Hv).
  { cbn [binary_normalize]. unfold binary_round, shl_align.
    assert (Hf : fexp prec emax (Z.pos (digits2_pos p) + 0)
                 = (Z.pos (digits2_pos p) - 53)%Z).
    { unfold fexp, emin, prec, emax. lia. }
    rewrite Hf.
    destruct (Z.pos (digits2_pos p) - 53 - 0)%Z as [|k|k] eqn:Hk; try lia.
    - assert (Hc : fexp prec emax (Z.pos (digits2_pos p) + 0) = 0%Z)
        by (rewrite Hf; lia).
      exists p, 0%Z. split.
      + apply binary_round_aux_canonical; [done|]. unfold emax, prec. lia.
      + cbn [valid_binary]. unfold bounded, canonical_mantissa.
        rewrite Hc. done.
    - assert (Hc : fexp prec emax
                     (Z.pos (digits2_pos (Pos.iter xO p k))
                      + (Z.pos (digits2_pos p) - 53))
                   = (Z.pos (digits2_pos p) - 53)%Z).
      { rewrite digits2_pos_iter. unfold fexp, emin, prec, emax. lia. }
      exists (Pos.iter xO p k), (Z.pos (digits2_pos p) - 53)%Z. split.
      + apply binary_round_aux_canonical; [done|]. unfold emax, prec. lia.
      + cbn [valid_binary]. unfold bounded, canonical_mantissa.
        rewrite Hc, Z.eqb_refl. apply Zle_imp_le_bool.
        unfold emax, prec. lia. }
  exists m, e. by apply Prim2SF_SF2Prim.
Qed.

Lemma float_of_Z_zero : float_of_Z 0 = 0%float.
Proof. reflexivity. Qed.

(** *** The sign of a sum

    Rounding keeps a mantissa that is not zero away from zero as long as the
    exponent is at least [emin], which it is for the sum of two floats: a
    sum is [-0.0] only when both terms are. *)

Lemma shr_1_m mrs : (0 ≤ shr_m mrs)%Z → shr_m (shr_1 mrs) = (shr_m mrs / 2)%Z.
Proof.
  destruct mrs as [m r s]. cbn [shr_m]. intros Hm. unfold shr_1.
  destruct m as [|[q|q|]|q]; cbn [shr_m]; try lia; try reflexivity.
  - apply (Z.div_unique _ _ _ 1); lia.
  - apply (Z.div_unique _ _ _ 0); lia.
Qed.

Lemma iter_shr_1_m p : ∀ mrs,
  (0 ≤ shr_m mrs)%Z →
  shr_m (SpecFloat.iter_pos shr_1 p mrs) = (shr_m mrs / 2 ^ Z.pos p)%Z.
Proof.
  induction p as [p IH|p IH|]; intros mrs Hm; cbn [SpecFloat.iter_pos];
    try assert (Hpow : (0 < 2 ^ Z.pos p)%Z) by (apply Z.pow_pos_nonneg; lia).
  - assert (H1 : (0 ≤ shr_m (shr_1 mrs))%Z).
    { rewrite shr_1_m by done. apply Z.div_pos; lia. }
    assert (H2 : (0 ≤ shr_m (SpecFloat.iter_pos shr_1 p (shr_1 mrs)))%Z).
    { rewrite IH by done. apply Z.div_pos; lia. }
    rewrite IH, IH, shr_1_m by done.
    rewrite (Z.div_div _ 2), Z.div_div by lia. f_equal.
    replace (Z.pos p~1) with (1 + Z.pos p + Z.pos p)%Z by lia.
    by rewrite !Z.pow_add_r by lia.
  - assert (H2 : (0 ≤ shr_m (SpecFloat.iter_pos shr_1 p mrs))%Z).
    { rewrite IH by done. apply Z.div_pos; lia. }
    rewrite IH, IH by done. rewrite Z.div_div by lia. f_equal.
    replace (Z.pos p~0) with (Z.pos p + Z.pos p)%Z by lia.
    by rewrite Z.pow_add_r by lia.
  - rewrite shr_1_m by done. done.
Qed.

Lemma digits2_pos_lower p : (2 ^ (Z.pos (digits2_pos p) - 1) ≤ Z.pos p)%Z.
Proof.
  rewrite digits2_pos_size. pose proof (Pos.size_le p) as Hle.
  apply Pos2Z.pos_le_pos in Hle. rewrite Pos2Z.inj_pow in Hle.
  change (Z.pos p~0) with (2 * Z.pos p)%Z in Hle.
  replace (Z.pos (Pos.size p)) with (1 + (Z.pos (Pos.size p) - 1))%Z in Hle
    by lia.
  rewrite Z.pow_add_r in Hle by lia. lia.
Qed.

Lemma shr_fexp_pos m e l :
  (SpecFloat.emin prec emax ≤ e)%Z →
  (0 < shr_m (shr_fexp prec emax (Z.pos m) e l).1)%Z
  ∧ (SpecFloat.emin prec emax ≤ (shr_fexp prec emax (Z.pos m) e l).2)%Z.
Proof.
  intros He. unfold shr_fexp, shr. cbn [Zdigits2].
  assert (Hm : shr_m (shr_record_of_loc (Z.pos m) l) = Z.pos m).
  { by destruct l as [|[]]. }
  destruct (fexp prec emax (Z.pos (digits2_pos m) + e) - e)%Z
    as [|k|k] eqn:Hk; cbn [fst snd]; try (rewrite Hm; lia).
  split; [|lia]. rewrite iter_shr_1_m, Hm by (rewrite Hm; lia).
  apply Z.div_str_pos. split; [lia|].
  etrans; [|apply digits2_pos_lower].
  apply Z.pow_le_mono_r; [lia|].
  unfold fexp, SpecFloat.emin, prec, emax in *. lia.
Qed.

Lemma round_nearest_even_pos m l :
  (0 < m)%Z → (0 < round_nearest_even m l)%Z.
Proof.
  intros Hm. destruct l as [|[]]; cbn [round_nearest_even]; try lia.
  destruct (Z.even m); lia.
Qed.

Lemma binary_round_aux_not_zero s m e l s' :
  (SpecFloat.emin prec emax ≤ e)%Z →
  binary_round_aux prec emax s (Z.pos m) e l ≠ S754_zero s'.
Proof.
  intros He. unfold binary_round_aux.
  destruct (shr_fexp_pos m e l He) as [Hm1 He1].
  destruct (shr_fexp prec emax (Z.pos m) e l) as [mrs1 e1].
  cbn [fst snd] in Hm1, He1.
  pose proof (round_nearest_even_pos _ (loc_of_shr_record mrs1) Hm1) as Hr.
  destruct (round_nearest_even (shr_m mrs1) (loc_of_shr_record mrs1))
    as [|m2|m2]; try lia.
  destruct (shr_fexp_pos m2 e1 loc_Exact He1) as [Hm2 _].
  destruct (shr_fexp prec emax (Z.pos m2) e1 loc_Exact) as [mrs2 e2].
  cbn [fst] in Hm2. destruct (shr_m mrs2); try lia.
  by destruct (e2 <=? emax - prec)%Z.
Qed.

Lemma binary_round_not_zero s m e s' :
  (SpecFloat.emin prec emax ≤ e)%Z →
  binary_round prec emax s m e ≠ S754_zero s'.
Proof.
  intros He. unfold binary_round, shl_align.
  assert (Hf : (SpecFloat.emin prec emax
                ≤ fexp prec emax (Z.pos (digits2_pos m) + e))%Z).
  { unfold fexp. lia. }
  destruct (fexp prec emax (Z.pos (digits2_pos m) + e) - e)%Z;
    by apply binary_round_aux_not_zero.
Qed.

Lemma valid_binary_emin s m e :
  valid_binary (S754_finite s m e) = true → (SpecFloat.emin prec emax ≤ e)%Z.
Proof.
  cbn [SpecFloat.valid_binary]. unfold bounded, canonical_mantissa.
  intros [Hc _]%andb_prop. apply Z.eqb_eq in Hc. unfold fexp in Hc. lia.
Qed.

(** A sum is [-0.0] only when both terms are. *)
Lemma add_neg_zero x y :
  negative_zero (x + y) → negative_zero x.
Proof.
  unfold negative_zero. rewrite add_spec. unfold SF64add, SFadd.
  pose proof (Prim2SF_valid x) as Hvx. pose proof (Prim2SF_valid y) as Hvy.
  destruct (Prim2SF x) as [sx|sx| |sx mx ex],
           (Prim2SF y) as [sy|sy| |sy my ey];
    try by (try destruct sx; try destruct sy).
  apply valid_binary_emin in Hvx, Hvy. cbv zeta. unfold binary_normalize.
  destruct (cond_Zopp _ _ + cond_Zopp _ _)%Z; [done|..];
    intros []%binary_round_not_zero; lia.
Qed.

(** Adding a zero changes nothing but a [-0.0]. *)
Lemma add_zero_r_exact y z :
  zero_float z → ¬ negative_zero y → (y + z)%float = y.
Proof.
  unfold zero_float, negative_zero. intros [sz Hz] Hy. apply Prim2SF_inj.
  rewrite add_spec, Hz. unfold SF64add, SFadd.
  destruct (Prim2SF y) as [[]|s| |s m e]; try done. by destruct sz.
Qed.

End Binary64.

(** ** Running computations *)

Section Properties.
Context {platform : Platform}.

#[local] Existing Instances M_ret M_bind.

Lemma run_bind_inr {A B} (m : M A) (k : A → M B) s a s' :
  m s = (inr a, s') → (m ≫= k) s = k a s'.
Proof. intros Hm. unfold mbind, M_bind. by rewrite Hm. Qed.

Lemma run_bind_inl {A B} (m : M A) (k : A → M B) s e s' :
  m s = (inl e, s') → (m ≫= k) s = (inl e, s').
Proof. intros Hm. unfold mbind, M_bind. by rewrite Hm. Qed.

Lemma run_lift {A} (x : exn + A) s : lift x s = (x, s).
Proof. done. Qed.

Lemma run_getitem {A} (a : list A) i x s :
  a !! i = Some x → getitem a i s = (inr x, s).
Proof. intros Ha. unfold getitem. by rewrite Ha. Qed.

Lemma run_setitem {A} (a : list A) i v s :
  i < length a → setitem a i v s = (inr (<[i:=v]> a), s).
Proof. intros Hi. unfold setitem. by rewrite decide_True. Qed.

Lemma run_setcol (m : matrix) j old v s :
  m !! j = Some old → length v = length old →
  setcol m j v s = (inr (<[j:=v]> m), s).
Proof.
  intros Hm Hv. unfold setcol, broadcast_to. rewrite Hm.
  unfold mbind, M_bind. by rewrite decide_True.
Qed.

Lemma run_np_random_seed s : np_random_seed 72 s = (inr (), seed 72).
Proof. unfold np_random_seed. rewrite decide_True; [done|lia]. Qed.

Lemma run_np_random_normal loc scale d0 d1 s :
  (0 ≤ d0)%Z → (0 ≤ d1)%Z →
  np_random_normal loc scale d0 d1 s
  = (inr (fill_normal loc scale (Z.to_nat d0) (Z.to_nat d1)
            (gauss_n (Z.to_nat d0 * Z.to_nat d1) s).1),
     (gauss_n (Z.to_nat d0 * Z.to_nat d1) s).2).
Proof.
  intros H0 H1. unfold np_random_normal. rewrite decide_False by lia.
  by destruct (gauss_n _ _).
Qed.

Lemma run_arr_add (a b : list float) s :
  length a = length b → arr_add a b s = (inr (zip_with PrimFloat.add a b), s).
Proof. intros Hab. unfold arr_add. by rewrite decide_True. Qed.

(** [float(NSteps)] and [T / float(NSteps)] for a valid number of steps. *)
Lemma py_float_exact n : valid_steps n → py_float n = inr (float_of_Z n).
Proof.
  intros Hn. destruct (float_of_Z_exact n Hn) as (m & e & Hf).
  unfold py_float. cbv zeta.
  destruct (is_infinity (float_of_Z n)) eqn:Hi; [|done].
  apply is_infinity_spec in Hi as [s Hs]. congruence.
Qed.

Lemma py_truediv_steps T n :
  valid_steps n → py_truediv T (float_of_Z n) = inr (step_size T n).
Proof.
  intros Hn. destruct (float_of_Z_exact n Hn) as (m & e & Hf).
  unfold py_truediv.
  destruct (float_of_Z n =? 0)%float eqn:Hz; [|done].
  apply eqb_zero_spec in Hz as [s Hs]. congruence.
Qed.

(** ** Lists given by their elements *)

Lemma lookup_tabulate {A} (f : nat → A) n j :
  j < n → (f <$> seq 0 n) !! j = Some (f j).
Proof.
  intros Hj. rewrite list_lookup_fmap, lookup_seq_lt by done. done.
Qed.

Lemma insert_tabulate {A} (f g : nat → A) n i :
  (∀ j, j ≠ i → g j = f j) →
  <[i:=g i]> (f <$> seq 0 n) = g <$> seq 0 n.
Proof.
  intros Hfg. apply list_eq. intros j.
  destruct (decide (j < n)) as [Hj|Hj].
  - rewrite (lookup_tabulate g) by done.
    destruct (decide (i = j)) as [->|Hij].
    + rewrite list_lookup_insert_eq; [done|].
      by rewrite length_fmap, length_seq.
    + rewrite list_lookup_insert_ne by done.
      rewrite lookup_tabulate by done. f_equal. symmetry. by apply Hfg.
  - rewrite !lookup_ge_None_2; [done| |].
    + rewrite length_fmap, length_seq. lia.
    + rewrite length_insert, length_fmap, length_seq. lia.
Qed.

Lemma tabulate_ext {A} (f g : nat → A) n :
  (∀ j, j < n → f j = g j) → f <$> seq 0 n = g <$> seq 0 n.
Proof.
  intros Hfg. apply list_fmap_ext. intros i x Hx.
  apply lookup_seq in Hx as [-> Hi]. by apply Hfg.
Qed.

Lemma length_tabulate {A} (f : nat → A) n : length (f <$> seq 0 n) = n.
Proof. by rewrite length_fmap, length_seq. Qed.

Lemma replicate_tabulate {A} (x : A) n : replicate n x = (λ _, x) <$> seq 0 n.
Proof.
  apply list_eq. intros j. destruct (decide (j < n)) as [Hj|Hj].
  - rewrite lookup_tabulate by done. by apply lookup_replicate_2.
  - rewrite !lookup_ge_None_2; [done| |].
    + rewrite length_tabulate. lia.
    + rewrite length_replicate. lia.
Qed.

Lemma entry_tabulate (f : nat → list float) n p j :
  j < n → entry (f <$> seq 0 n) p j = f j !! p.
Proof. intros Hj. unfold entry. by rewrite lookup_tabulate. Qed.

(** ** Shapes of the columns *)

Lemma length_drawn_col NPaths NSteps j :
  length (drawn_col NPaths NSteps j) = Z.to_nat NPaths.
Proof. unfold drawn_col, fill_col. apply length_tabulate. Qed.

Lemma length_standardize col : length (standardize col) = length col.
Proof. unfold standardize. by rewrite !length_fmap. Qed.

Lemma length_used_col NPaths NSteps j :
  length (used_col NPaths NSteps j) = Z.to_nat NPaths.
Proof.
  unfold used_col. case_decide.
  - by rewrite length_standardize, length_drawn_col.
  - apply length_drawn_col.
Qed.

Lemma length_X_col NPaths NSteps r sigma sigma2 dt S_0 j :
  length (X_col NPaths NSteps r sigma sigma2 dt S_0 j) = Z.to_nat NPaths.
Proof.
  induction j as [|j IH]; simpl.
  - apply length_replicate.
  - rewrite length_zip_with, !length_fmap, IH, length_used_col. lia.
Qed.

(** ** One turn of the loop *)

Lemma standardize_step NPaths NSteps r sigma sigma2 dt S_0 i s :
  i < Z.to_nat NSteps →
  (if decide (NPaths > 1)%Z then
     Zi ← getitem (loop_state NPaths NSteps r sigma sigma2 dt S_0 i).1.1 i;
     setcol (loop_state NPaths NSteps r sigma sigma2 dt S_0 i).1.1 i
       (standardize Zi)
   else mret (loop_state NPaths NSteps r sigma sigma2 dt S_0 i).1.1) s
  = (inr (loop_state NPaths NSteps r sigma sigma2 dt S_0 (S i)).1.1, s).
Proof.
  intros Hi. simpl.
  assert (Hcol : ((λ j, if decide (j < i) then used_col NPaths NSteps j
                        else drawn_col NPaths NSteps j)
                    <$> seq 0 (Z.to_nat NSteps)) !! i
                 = Some (drawn_col NPaths NSteps i)).
  { rewrite lookup_tabulate by done. by rewrite decide_False by lia. }
  case_decide as Hn.
  - erewrite run_bind_inr by (apply run_getitem, Hcol).
    erewrite run_setcol; [|exact Hcol|by rewrite length_standardize].
    do 2 f_equal.
    set (g := λ j, if decide (j < S i) then used_col NPaths NSteps j
                   else drawn_col NPaths NSteps j).
    assert (Hg : standardize (drawn_col NPaths NSteps i) = g i).
    { unfold g, used_col. by rewrite !decide_True by lia. }
    rewrite Hg. apply insert_tabulate.
    intros j Hj. unfold g. repeat case_decide; done || lia.
  - unfold mret, M_ret. do 2 f_equal. apply tabulate_ext. intros j Hj.
    repeat case_decide; try done; try lia.
    assert (j = i) as -> by lia. unfold used_col. by rewrite decide_False.
Qed.

(** The turn, when [sigma ** 2] has the value [sigma2]. *)
Lemma loop_body_step NPaths NSteps r sigma sigma2 dt S_0 i s :
  i < Z.to_nat NSteps → float_pow2 sigma = inr sigma2 →
  loop_body NPaths r sigma dt i
    (loop_state NPaths NSteps r sigma sigma2 dt S_0 i) s
  = (inr (loop_state NPaths NSteps r sigma sigma2 dt S_0 (S i)), s).
Proof.
  intros Hi Hpow.
  pose proof (standardize_step NPaths NSteps r sigma sigma2 dt S_0 i s Hi)
    as HZ.
  assert (HN : Z.to_nat (NSteps + 1) = S (Z.to_nat NSteps)) by lia.
  unfold loop_body.
  destruct (loop_state NPaths NSteps r sigma sigma2 dt S_0 i)
    as [[Zm Xm] tm] eqn:Hst.
  destruct (loop_state NPaths NSteps r sigma sigma2 dt S_0 (S i))
    as [[Zm' Xm'] tm'] eqn:Hst'.
  simpl in HZ. erewrite run_bind_inr by exact HZ.
  unfold loop_state in Hst, Hst'.
  injection Hst as <- <- <-. injection Hst' as <- <- <-.
  erewrite run_bind_inr; cycle 1.
  { apply run_getitem. rewrite lookup_tabulate by lia.
    by rewrite decide_True by lia. }
  erewrite run_bind_inr by (rewrite Hpow; apply run_lift).
  cbv zeta.
  erewrite run_bind_inr; cycle 1.
  { apply run_getitem. rewrite lookup_tabulate by lia.
    by rewrite decide_True by lia. }
  erewrite run_bind_inr; cycle 1.
  { apply run_arr_add.
    by rewrite !length_fmap, length_X_col, length_used_col. }
  erewrite run_bind_inr; cycle 1.
  { eapply run_setcol.
    - rewrite lookup_tabulate by lia. by rewrite decide_False by lia.
    - rewrite length_zip_with, !length_fmap, length_X_col, length_used_col,
        length_replicate. lia. }
  erewrite run_bind_inr; cycle 1.
  { apply run_getitem. rewrite lookup_tabulate by lia.
    by rewrite decide_True by lia. }
  erewrite run_bind_inr; cycle 1.
  { apply run_setitem. rewrite length_tabulate. lia. }
  unfold mret, M_ret. do 3 f_equal; [f_equal|].
  - replace (i + 1) with (S i) by lia.
    set (g := λ j, if decide (j ≤ S i)
                   then X_col NPaths NSteps r sigma sigma2 dt S_0 j
                   else replicate (Z.to_nat NPaths) 0%float).
    change (zip_with _ _ _)
      with (X_col NPaths NSteps r sigma sigma2 dt S_0 (S i)).
    assert (Hg : X_col NPaths NSteps r sigma sigma2 dt S_0 (S i) = g (S i)).
    { unfold g. by rewrite decide_True by lia. }
    rewrite Hg. apply insert_tabulate.
    intros j Hj. unfold g. repeat case_decide; done || lia.
  - replace (i + 1) with (S i) by lia.
    set (g := λ j, if decide (j ≤ S i) then time_at dt j else 0%float).
    change (time_at dt i + dt)%float with (time_at dt (S i)).
    assert (Hg : time_at dt (S i) = g (S i)).
    { unfold g. by rewrite decide_True by lia. }
    rewrite Hg. apply insert_tabulate.
    intros j Hj. unfold g. repeat case_decide; done || lia.
Qed.

(** The first turn, when [sigma ** 2] raises. *)
Lemma loop_body_raises NPaths NSteps r sigma sigma2 dt S_0 e s :
  (1 ≤ NSteps)%Z → float_pow2 sigma = inl e →
  loop_body NPaths r sigma dt 0
    (loop_state NPaths NSteps r sigma sigma2 dt S_0 0) s
  = (inl e, s).
Proof.
  intros HN Hpow.
  assert (Hi : 0 < Z.to_nat NSteps) by lia.
  pose proof (standardize_step NPaths NSteps r sigma sigma2 dt S_0 0 s Hi)
    as HZ.
  unfold loop_body.
  destruct (loop_state NPaths NSteps r sigma sigma2 dt S_0 0)
    as [[Zm Xm] tm] eqn:Hst.
  simpl in HZ. erewrite run_bind_inr by exact HZ.
  unfold loop_state in Hst. injection Hst as <- <- <-.
  erewrite run_bind_inr; cycle 1.
  { apply run_getitem. rewrite lookup_tabulate by lia.
    by rewrite decide_True by lia. }
  erewrite run_bind_inl; [done|]. rewrite Hpow. apply run_lift.
Qed.

(** ** The whole loop and the whole call *)

Lemma for_each_loop NPaths NSteps r sigma sigma2 dt S_0 k i s :
  i + k = Z.to_nat NSteps → float_pow2 sigma = inr sigma2 →
  for_each (seq i k) (loop_body NPaths r sigma dt)
    (loop_state NPaths NSteps r sigma sigma2 dt S_0 i) s
  = (inr (loop_state NPaths NSteps r sigma sigma2 dt S_0 (Z.to_nat NSteps)),
     s).
Proof.
  intros Hik Hpow. revert i Hik. induction k as [|k IH]; intros i Hik; simpl.
  - unfold mret, M_ret. do 3 f_equal. lia.
  - erewrite run_bind_inr by (apply loop_body_step; [lia|done]).
    apply IH. lia.
Qed.

Lemma loop_state_end NPaths NSteps r sigma sigma2 dt S_0 :
  loop_state NPaths NSteps r sigma sigma2 dt S_0 (Z.to_nat NSteps)
  = (used_col NPaths NSteps <$> seq 0 (Z.to_nat NSteps),
     X_col NPaths NSteps r sigma sigma2 dt S_0
       <$> seq 0 (Z.to_nat (NSteps + 1)),
     time_at dt <$> seq 0 (Z.to_nat (NSteps + 1))).
Proof.
  unfold loop_state. f_equal; [f_equal|]; apply tabulate_ext; intros j Hj.
  - by rewrite decide_True.
  - rewrite decide_True; [done|lia].
  - rewrite decide_True; [done|lia].
Qed.

(** Lines 17 to 24: the state in which the loop starts. *)
Lemma GeneratePaths_prologue NPaths NSteps T r sigma sigma2 S_0 s
    (k : float → locals → M locals) :
  (0 ≤ NPaths)%Z → valid_steps NSteps →
  (np_random_seed 72;;
   Zm ← np_random_normal 0 1 NPaths NSteps;
   Xm ← np_zeros2 NPaths (NSteps + 1);
   time ← np_zeros1 (NSteps + 1);
   Xm ← setcol_scalar Xm 0 (np_log S_0);
   n ← lift (py_float NSteps);
   dt ← lift (py_truediv T n);
   k dt (Zm, Xm, time)) s
  = k (step_size T NSteps)
      (loop_state NPaths NSteps r sigma sigma2 (step_size T NSteps) S_0 0)
      (rng_after NPaths NSteps).
Proof.
  intros HP HN. pose proof HN as [HN1 _].
  assert (HS : Z.to_nat (NSteps + 1) = S (Z.to_nat NSteps)) by lia.
  erewrite run_bind_inr by apply run_np_random_seed.
  erewrite run_bind_inr by (apply run_np_random_normal; lia).
  erewrite run_bind_inr; cycle 1.
  { unfold np_zeros2. by rewrite decide_False by lia. }
  erewrite run_bind_inr; cycle 1.
  { unfold np_zeros1. by rewrite decide_False by lia. }
  erewrite run_bind_inr; cycle 1.
  { unfold setcol_scalar. rewrite lookup_replicate_2 by lia. done. }
  erewrite run_bind_inr by (rewrite py_float_exact by done; apply run_lift).
  erewrite run_bind_inr
    by (rewrite py_truediv_steps by done; apply run_lift).
  unfold rng_after. f_equal. unfold loop_state. f_equal; [f_equal|].
  - rewrite length_replicate, (replicate_tabulate (replicate _ 0%float)).
    set (g := λ j, if decide (j ≤ 0)
                   then X_col NPaths NSteps r sigma sigma2
                          (step_size T NSteps) S_0 j
                   else replicate (Z.to_nat NPaths) 0%float).
    change (replicate (Z.to_nat NPaths) (np_log S_0)) with (g 0).
    apply insert_tabulate. intros j Hj. unfold g.
    rewrite decide_False; [done|lia].
  - rewrite replicate_tabulate. apply tabulate_ext. intros j Hj.
    case_decide; [|done]. by assert (j = 0) as -> by lia.
Qed.

Lemma GeneratePaths_locals_run NPaths NSteps T r sigma sigma2 S_0 s :
  (0 ≤ NPaths)%Z → valid_steps NSteps → float_pow2 sigma = inr sigma2 →
  GeneratePaths_locals NPaths NSteps T r sigma S_0 s
  = (inr (used_col NPaths NSteps <$> seq 0 (Z.to_nat NSteps),
          X_col NPaths NSteps r sigma sigma2 (step_size T NSteps) S_0
            <$> seq 0 (Z.to_nat (NSteps + 1)),
          time_at (step_size T NSteps) <$> seq 0 (Z.to_nat (NSteps + 1))),
     rng_after NPaths NSteps).
Proof.
  intros HP HN Hpow. unfold GeneratePaths_locals.
  rewrite (GeneratePaths_prologue NPaths NSteps T r sigma sigma2 S_0 s
             (λ dt, for_each (seq 0 (Z.to_nat NSteps))
                      (loop_body NPaths r sigma dt))) by done.
  rewrite <- loop_state_end. apply for_each_loop; [lia|done].
Qed.

Lemma GeneratePaths_run NPaths NSteps T r sigma sigma2 S_0 s :
  (0 ≤ NPaths)%Z → valid_steps NSteps → float_pow2 sigma = inr sigma2 →
  GeneratePaths NPaths NSteps T r sigma S_0 s
  = (inr (result NPaths NSteps T r sigma sigma2 S_0),
     rng_after NPaths NSteps).
Proof.
  intros HP HN Hpow. unfold GeneratePaths.
  by erewrite run_bind_inr by (by apply GeneratePaths_locals_run).
Qed.

(** When [sigma ** 2] raises, the call raises on the first turn of the
    loop, after the variates are drawn. *)
Lemma GeneratePaths_run_raises NPaths NSteps T r sigma S_0 e s :
  (0 ≤ NPaths)%Z → valid_steps NSteps → float_pow2 sigma = inl e →
  GeneratePaths NPaths NSteps T r sigma S_0 s
  = (inl e, rng_after NPaths NSteps).
Proof.
  intros HP HN Hpow. pose proof HN as [HN1 _].
  unfold GeneratePaths, GeneratePaths_locals.
  erewrite run_bind_inl; [done|].
  rewrite (GeneratePaths_prologue NPaths NSteps T r sigma 0%float S_0 s
             (λ dt, for_each (seq 0 (Z.to_nat NSteps))
                      (loop_body NPaths r sigma dt))) by done.
  replace (Z.to_nat NSteps) with (S (Z.to_nat NSteps - 1)) by lia.
  cbn [seq for_each]. erewrite run_bind_inl; [done|].
  replace (S (Z.to_nat NSteps - 1)) with (Z.to_nat NSteps) by lia.
  by apply loop_body_raises.
Qed.

(** ** The generator *)

Lemma pure_mret {A} (a : A) : pure (mret a).
Proof. by intros s. Qed.

Lemma pure_raise {A} e : pure (raise (A:=A) e).
Proof. by intros s. Qed.

Lemma pure_lift {A} (x : exn + A) : pure (lift x).
Proof. by intros s. Qed.

Lemma pure_bind {A B} (m : M A) (k : A → M B) :
  pure m → (∀ a, pure (k a)) → pure (m ≫= k).
Proof.
  intros Hm Hk s. unfold mbind, M_bind. specialize (Hm s).
  destruct (m s) as [[e|a] s'] eqn:E; simpl in Hm; subst s'; [done|].
  apply Hk.
Qed.

Lemma pure_getitem {A} (a : list A) i : pure (getitem a i).
Proof.
  unfold getitem. destruct (a !! i); [apply pure_mret|apply pure_raise].
Qed.

Lemma pure_setitem {A} (a : list A) i v : pure (setitem a i v).
Proof. unfold setitem. case_decide; [apply pure_mret|apply pure_raise]. Qed.

Lemma pure_broadcast_to n v : pure (broadcast_to n v).
Proof.
  unfold broadcast_to. case_decide; [apply pure_mret|].
  destruct v as [|x [|y v]];
    [apply pure_raise|apply pure_mret|apply pure_raise].
Qed.

Lemma pure_setcol m j v : pure (setcol m j v).
Proof.
  unfold setcol. destruct (m !! j); [|apply pure_raise].
  apply pure_bind; [apply pure_broadcast_to|]. intros ?. apply pure_mret.
Qed.

Lemma pure_setcol_scalar m j x : pure (setcol_scalar m j x).
Proof.
  unfold setcol_scalar. destruct (m !! j); [apply pure_mret|apply pure_raise].
Qed.

Lemma pure_arr_add a b : pure (arr_add a b).
Proof.
  unfold arr_add. case_decide; [apply pure_mret|].
  destruct a as [|x [|x' a]], b as [|y [|y' b]];
    apply pure_mret || apply pure_raise.
Qed.

Lemma pure_np_zeros1 d : pure (np_zeros1 d).
Proof. unfold np_zeros1. case_decide; [apply pure_raise|apply pure_mret]. Qed.

Lemma pure_np_zeros2 d0 d1 : pure (np_zeros2 d0 d1).
Proof. unfold np_zeros2. case_decide; [apply pure_raise|apply pure_mret]. Qed.

Lemma pure_loop_body NPaths r sigma dt i st :
  pure (loop_body NPaths r sigma dt i st).
Proof.
  destruct st as [[Zm Xm] tm]. unfold loop_body.
  apply pure_bind.
  { case_decide; [|apply pure_mret].
    apply pure_bind; [apply pure_getitem|]. intros ?. apply pure_setcol. }
  intros ?. apply pure_bind; [apply pure_getitem|]. intros ?.
  apply pure_bind; [apply pure_lift|]. intros ?. cbv zeta.
  apply pure_bind; [apply pure_getitem|]. intros ?.
  apply pure_bind; [apply pure_arr_add|]. intros ?.
  apply pure_bind; [apply pure_setcol|]. intros ?.
  apply pure_bind; [apply pure_getitem|]. intros ?.
  apply pure_bind; [apply pure_setitem|]. intros ?. apply pure_mret.
Qed.

Lemma pure_for_each {St} idx (body : nat → St → M St) st :
  (∀ i st, pure (body i st)) → pure (for_each idx body st).
Proof.
  intros Hb. revert st. induction idx as [|i idx IH]; intros st; simpl.
  - apply pure_mret.
  - apply pure_bind; [apply Hb|]. intros ?. apply IH.
Qed.

(** What follows a computation and is pure does not change the state it
    leaves, whether it returns or raises. *)
Lemma bind_state {A B} (m : M A) (k : A → M B) s :
  (∀ a, pure (k a)) → ((m ≫= k) s).2 = (m s).2.
Proof.
  intros Hk. unfold mbind, M_bind.
  destruct (m s) as [[e|a] s']; [done|]. apply Hk.
Qed.

(** The state after a call is the state after line 18. *)
Lemma GeneratePaths_state NPaths NSteps T r sigma S_0 s :
  (GeneratePaths NPaths NSteps T r sigma S_0 s).2
  = (np_random_normal 0 1 NPaths NSteps (seed 72)).2.
Proof.
  unfold GeneratePaths.
  rewrite bind_state by (intros [[? ?] ?]; apply pure_mret).
  unfold GeneratePaths_locals.
  erewrite run_bind_inr by apply run_np_random_seed.
  apply bind_state. intros Zm.
  apply pure_bind; [apply pure_np_zeros2|]. intros ?.
  apply pure_bind; [apply pure_np_zeros1|]. intros ?.
  apply pure_bind; [apply pure_setcol_scalar|]. intros ?.
  apply pure_bind; [apply pure_lift|]. intros ?.
  apply pure_bind; [apply pure_lift|]. intros ?.
  apply pure_for_each. intros. apply pure_loop_body.
Qed.

(** The first statement overwrites the generator state: a call does not
    depend on the state it starts from, for any arguments. *)
Lemma GeneratePaths_locals_reseeds NPaths NSteps T r sigma S_0 s1 s2 :
  GeneratePaths_locals NPaths NSteps T r sigma S_0 s1
  = GeneratePaths_locals NPaths NSteps T r sigma S_0 s2.
Proof.
  unfold GeneratePaths_locals.
  by rewrite (run_bind_inr _ _ s1 _ _ (run_np_random_seed s1)),
    (run_bind_inr _ _ s2 _ _ (run_np_random_seed s2)).
Qed.

Lemma GeneratePaths_reseeds NPaths NSteps T r sigma S_0 s1 s2 :
  GeneratePaths NPaths NSteps T r sigma S_0 s1
  = GeneratePaths NPaths NSteps T r sigma S_0 s2.
Proof.
  unfold GeneratePaths, mbind, M_bind.
  by rewrite (GeneratePaths_locals_reseeds _ _ _ _ _ _ s1 s2).
Qed.

(** ** Calls that fail before the loop *)

Lemma GeneratePaths_run_negative NPaths NSteps T r sigma S_0 s :
  (NPaths < 0 ∨ NSteps < 0)%Z →
  GeneratePaths NPaths NSteps T r sigma S_0 s = (inl ValueError, seed 72).
Proof.
  intros Hneg. unfold GeneratePaths, GeneratePaths_locals.
  erewrite run_bind_inl; [done|].
  erewrite run_bind_inr by apply run_np_random_seed.
  erewrite run_bind_inl; [done|].
  unfold np_random_normal. by rewrite decide_True.
Qed.

Lemma GeneratePaths_run_zero_steps NPaths T r sigma S_0 s :
  (0 ≤ NPaths)%Z →
  GeneratePaths NPaths 0 T r sigma S_0 s
  = (inl ZeroDivisionError, rng_after NPaths 0).
Proof.
  intros HP. unfold GeneratePaths, GeneratePaths_locals.
  erewrite run_bind_inl; [done|].
  erewrite run_bind_inr by apply run_np_random_seed.
  erewrite run_bind_inr by (apply run_np_random_normal; lia).
  erewrite run_bind_inr; cycle 1.
  { unfold np_zeros2. by rewrite decide_False by lia. }
  erewrite run_bind_inr; cycle 1.
  { unfold np_zeros1. by rewrite decide_False by lia. }
  erewrite run_bind_inr; cycle 1.
  { unfold setcol_scalar. by rewrite lookup_replicate_2 by lia. }
  erewrite run_bind_inr by (by apply run_lift).
  erewrite run_bind_inl; [done|]. by apply run_lift.
Qed.

(** ** The columns of a call *)

Lemma X_col_step NPaths NSteps r sigma sigma2 dt S_0 j p :
  p < Z.to_nat NPaths →
  ∃ x z,
    X_col NPaths NSteps r sigma sigma2 dt S_0 j !! p = Some x
    ∧ used_col NPaths NSteps j !! p = Some z
    ∧ X_col NPaths NSteps r sigma sigma2 dt S_0 (S j) !! p
      = Some ((x + drift r sigma2 dt) + vol sigma dt * z)%float.
Proof.
  intros Hp.
  destruct (lookup_lt_is_Some_2
              (X_col NPaths NSteps r sigma sigma2 dt S_0 j) p)
    as [x Hx]; [by rewrite length_X_col|].
  destruct (lookup_lt_is_Some_2 (used_col NPaths NSteps j) p)
    as [z Hz]; [by rewrite length_used_col|].
  exists x, z. split; [done|]. split; [done|].
  simpl. rewrite lookup_zip_with, !list_lookup_fmap, Hx, Hz. done.
Qed.

Lemma entry_np_exp (m : matrix) p j :
  entry (np_exp m) p j = npy_exp <$> entry m p j.
Proof.
  unfold entry, np_exp. rewrite list_lookup_fmap.
  destruct (m !! j) as [col|]; simpl; [|done]. by rewrite list_lookup_fmap.
Qed.

Lemma has_shape_X NPaths NSteps r sigma sigma2 dt S_0 n :
  has_shape (X_col NPaths NSteps r sigma sigma2 dt S_0 <$> seq 0 n)
    (Z.to_nat NPaths) n.
Proof.
  split; [apply length_tabulate|]. intros col Hcol.
  apply list_elem_of_fmap in Hcol as (j & -> & _). apply length_X_col.
Qed.

Lemma has_shape_np_exp m nrows ncols :
  has_shape m nrows ncols → has_shape (np_exp m) nrows ncols.
Proof.
  intros [Hlen Hcols]. unfold np_exp. split; [by rewrite length_fmap|].
  intros col Hcol. apply list_elem_of_fmap in Hcol as (col' & -> & Hcol).
  rewrite length_fmap. by apply Hcols.
Qed.

(** *** A column that is not finite spreads to every later column of [X] *)



(** *** A volatility factor that is NaN *)

Lemma X_col_nan_vol NPaths NSteps r sigma sigma2 dt S_0 j p :
  vol sigma dt = nan → p < Z.to_nat NPaths →
  X_col NPaths NSteps r sigma sigma2 dt S_0 (S j) !! p = Some nan.
Proof.
  intros Hvol Hp.
  destruct (X_col_step NPaths NSteps r sigma sigma2 dt S_0 j p Hp)
    as (x & z & _ & _ & ->).
  by rewrite Hvol, mul_nan_l, add_nan_r.
Qed.

(** *** No volatility *)

Lemma float_pow2_zero : float_pow2 0 = inr 0%float.
Proof. reflexivity. Qed.

Lemma drift_zero r dt : drift r 0 dt = (r * dt)%float.
Proof.
  unfold drift. change (0.5 * 0)%float with 0%float. by rewrite sub_zero_r.
Qed.

Lemma X_col_drift NPaths NSteps r dt S_0 j p x :
  is_finite (np_power dt 0.5) = true →
  (∀ i z, i < j → z ∈ used_col NPaths NSteps i → is_finite z = true) →
  X_col NPaths NSteps r 0 0 dt S_0 j !! p = Some x →
  same_value x (drift_path r dt S_0 j).
Proof.
  intros Hpw. revert x. induction j as [|j IH]; intros x Hz Hx.
  - simpl in Hx. apply lookup_replicate in Hx as [-> _].
    apply same_value_refl.
  - assert (Hp : p < Z.to_nat NPaths).
    { apply lookup_lt_Some in Hx. by rewrite length_X_col in Hx. }
    destruct (X_col_step NPaths NSteps r 0 0 dt S_0 j p Hp)
      as (x' & z & Hx' & Hzj & Hstep).
    rewrite Hstep in Hx. injection Hx as <-. rewrite drift_zero.
    assert (zero_float (vol 0 dt * z)) as Hzero.
    { apply mul_zero_l.
      - apply mul_zero_l; [|done]. exists false. apply Prim2SF_zero.
      - apply (Hz j); [lia|]. by eapply list_elem_of_lookup_2. }
    eapply same_value_trans; [by apply add_zero_r|].
    cbn [drift_path]. apply add_same_value, IH; [|done].
    intros i z' Hi. apply Hz. lia.
Qed.

Lemma same_value_sym x y : same_value x y → same_value y x.
Proof. unfold same_value. intros [->|[Hx Hy]]; auto. Qed.

(** The same without volatility and with a starting level that is not
    [-0.0]: no entry of [X] is [-0.0], and the zero that line 29 adds
    changes nothing. *)
Lemma X_col_drift_exact NPaths NSteps r dt S_0 j p x :
  is_finite (np_power dt 0.5) = true →
  (∀ i z, i < j → z ∈ used_col NPaths NSteps i → is_finite z = true) →
  ¬ negative_zero (np_log S_0) →
  X_col NPaths NSteps r 0 0 dt S_0 j !! p = Some x →
  x = drift_path r dt S_0 j ∧ ¬ negative_zero x.
Proof.
  intros Hpw Hz Hlog. revert x Hz. induction j as [|j IH]; intros x Hz Hx.
  - simpl in Hx. by apply lookup_replicate in Hx as [-> _].
  - assert (Hp : p < Z.to_nat NPaths).
    { apply lookup_lt_Some in Hx. by rewrite length_X_col in Hx. }
    destruct (X_col_step NPaths NSteps r 0 0 dt S_0 j p Hp)
      as (x' & z & Hx' & Hzj & Hstep).
    rewrite Hstep in Hx. injection Hx as <-. rewrite drift_zero.
    destruct (IH x') as [-> Hnz]; [intros i z' Hi; apply Hz; lia|done|].
    assert (zero_float (vol 0 dt * z)) as Hzero.
    { apply mul_zero_l.
      - apply mul_zero_l; [|done]. exists false. apply Prim2SF_zero.
      - apply (Hz j); [lia|]. by eapply list_elem_of_lookup_2. }
    assert (¬ negative_zero (drift_path r dt S_0 j + r * dt)) as Hsum.
    { by intros ?%add_neg_zero. }
    by rewrite add_zero_r_exact.
Qed.

(** ** The claims *)

(** C5.  For [NPaths >= 1] and [NSteps >= 1], when [sigma ** 2] does not
    overflow, the call returns a bundle in which [time] has [NSteps + 1]
    elements and [X] and [S] both have [NPaths] rows and [NSteps + 1]
    columns. *)
Theorem GeneratePaths_shape NPaths NSteps T r sigma sigma2 S_0 s :
  (1 ≤ NPaths)%Z → valid_steps NSteps → float_pow2 sigma = inr sigma2 →
  ∃ res,
    (GeneratePaths NPaths NSteps T r sigma S_0 s).1 = inr res
    ∧ length (paths_time res) = Z.to_nat (NSteps + 1)
    ∧ has_shape (paths_X res) (Z.to_nat NPaths) (Z.to_nat (NSteps + 1))
    ∧ has_shape (paths_S res) (Z.to_nat NPaths) (Z.to_nat (NSteps + 1)).
Proof.
  intros HP HN Hpow.
  rewrite (GeneratePaths_run _ _ _ _ _ sigma2) by (done || lia).
  eexists. split; [done|]. cbn [result paths_time paths_X paths_S].
  split; [apply length_tabulate|]. split.
  - apply has_shape_X.
  - apply has_shape_np_exp, has_shape_X.
Qed.

(** C2.  For [NPaths >= 1] and [NSteps >= 1], when [sigma ** 2] does not
    overflow and has the value [sigma2], the call returns; [Z[:,i]] is the
    drawn column of step [i], standardized when [NPaths > 1]; and every row
    [p] satisfies, in binary64 and with the association of line 29,
    [X[p,i+1] = (X[p,i] + (r - 0.5*sigma2)*dt) + vol*Z[p,i]] with
    [vol = sigma*np.power(dt,0.5)] and [dt = T / float(NSteps)]. *)
Theorem GeneratePaths_advance NPaths NSteps T r sigma sigma2 S_0 s :
  (1 ≤ NPaths)%Z → valid_steps NSteps → float_pow2 sigma = inr sigma2 →
  ∃ Zm Xm tm,
    (GeneratePaths_locals NPaths NSteps T r sigma S_0 s).1 = inr (Zm, Xm, tm)
    ∧ (GeneratePaths NPaths NSteps T r sigma S_0 s).1
      = inr (Paths tm Xm (np_exp Xm))
    ∧ ∀ i, i < Z.to_nat NSteps →
        Zm !! i = Some (if decide (NPaths > 1)%Z
                        then standardize (drawn_col NPaths NSteps i)
                        else drawn_col NPaths NSteps i)
        ∧ ∀ p, p < Z.to_nat NPaths →
            ∃ x z,
              entry Xm p i = Some x
              ∧ entry Zm p i = Some z
              ∧ entry Xm p (i + 1)
                = Some ((x + (r - 0.5 * sigma2) * (T / float_of_Z NSteps))
                        + (sigma * np_power (T / float_of_Z NSteps) 0.5) * z
                       )%float.
Proof.
  intros HP HN Hpow. pose proof HN as [HN1 _].
  rewrite (GeneratePaths_run _ _ _ _ _ sigma2),
    (GeneratePaths_locals_run _ _ _ _ _ sigma2) by (done || lia).
  do 3 eexists. split; [done|]. split; [done|]. intros i Hi.
  split; [by rewrite lookup_tabulate|]. intros p Hp.
  destruct (X_col_step NPaths NSteps r sigma sigma2 (step_size T NSteps)
              S_0 i p Hp) as (x & z & Hx & Hz & Hstep).
  exists x, z. rewrite !entry_tabulate by lia.
  replace (i + 1) with (S i) by lia. done.
Qed.

(** C4.  For [NPaths >= 1] and [NSteps >= 1], when [sigma ** 2] does not
    overflow, there is one bundle that every invocation returns, whatever the
    state in which earlier calls left the generator: a second invocation, run
    from the state the first one leaves, returns the same [time], [X] and
    [S]. *)
Theorem GeneratePaths_deterministic NPaths NSteps T r sigma sigma2 S_0 :
  (1 ≤ NPaths)%Z → valid_steps NSteps → float_pow2 sigma = inr sigma2 →
  ∃ res,
    (∀ s, (GeneratePaths NPaths NSteps T r sigma S_0 s).1 = inr res)
    ∧ ∀ s,
        let s' := (GeneratePaths NPaths NSteps T r sigma S_0 s).2 in
        (GeneratePaths NPaths NSteps T r sigma S_0 s').1 = inr res.
Proof.
  intros HP HN Hpow. eexists. split.
  - intros s. by rewrite (GeneratePaths_run _ _ _ _ _ sigma2) by (done || lia).
  - intros s s'. rewrite (GeneratePaths_reseeds _ _ _ _ _ _ s' s).
    by rewrite (GeneratePaths_run _ _ _ _ _ sigma2) by (done || lia).
Qed.

(** C6 (amended).  For [NPaths >= 1] and [NSteps >= 1], when [sigma ** 2]
    does not overflow, the first column of [X] is [np.log(S_0)] in every row
    and the first column of [S] is [np.exp(np.log(S_0))]. *)
Theorem GeneratePaths_initial NPaths NSteps T r sigma sigma2 S_0 s :
  (1 ≤ NPaths)%Z → valid_steps NSteps → float_pow2 sigma = inr sigma2 →
  ∃ res,
    (GeneratePaths NPaths NSteps T r sigma S_0 s).1 = inr res
    ∧ ∀ p, p < Z.to_nat NPaths →
        entry (paths_X res) p 0 = Some (np_log S_0)
        ∧ entry (paths_S res) p 0 = Some (npy_exp (np_log S_0)).
Proof.
  intros HP HN Hpow. pose proof HN as [HN1 _].
  rewrite (GeneratePaths_run _ _ _ _ _ sigma2) by (done || lia).
  eexists. split; [done|]. intros p Hp. cbn [result paths_X paths_S].
  assert (HX : entry (X_col NPaths NSteps r sigma sigma2
                        (step_size T NSteps) S_0
                        <$> seq 0 (Z.to_nat (NSteps + 1))) p 0
               = Some (np_log S_0)).
  { rewrite entry_tabulate by lia. cbn [X_col].
    by rewrite lookup_replicate_2. }
  split; [done|]. by rewrite entry_np_exp, HX.
Qed.

(** C7 (amended).  For [NPaths >= 1] and [NSteps >= 1], when [sigma ** 2]
    does not overflow, the time grid has [NSteps + 1] points, starts at 0, and
    each point is the binary64 sum of the one before and of
    [dt = T / float(NSteps)]. *)
Theorem GeneratePaths_time_grid NPaths NSteps T r sigma sigma2 S_0 s :
  (1 ≤ NPaths)%Z → valid_steps NSteps → float_pow2 sigma = inr sigma2 →
  ∃ res,
    (GeneratePaths NPaths NSteps T r sigma S_0 s).1 = inr res
    ∧ length (paths_time res) = Z.to_nat (NSteps + 1)
    ∧ paths_time res !! 0 = Some 0%float
    ∧ ∀ j, j < Z.to_nat NSteps →
        ∃ a, paths_time res !! j = Some a
             ∧ paths_time res !! (j + 1)
               = Some (a + T / float_of_Z NSteps)%float.
Proof.
  intros HP HN Hpow. pose proof HN as [HN1 _].
  rewrite (GeneratePaths_run _ _ _ _ _ sigma2) by (done || lia).
  eexists. split; [done|]. cbn [result paths_time].
  split; [apply length_tabulate|].
  split; [by rewrite lookup_tabulate by lia|].
  intros j Hj. exists (time_at (step_size T NSteps) j).
  rewrite !lookup_tabulate by lia. split; [done|].
  by replace (j + 1) with (S j) by lia.
Qed.

(** C8 (amended).  With [sigma = 0] the call returns for [NPaths >= 1] and
    [NSteps >= 1].  When [np.power(dt, 0.5)] and the variates that line 29
    reads are finite, every row of [X] is the path that starts at
    [np.log(S_0)] and gains the binary64 product [r * dt] at each step, so
    all rows are identical: exactly so when [np.log(S_0)] is not [-0.0]
    (no logarithm is), and up to the sign of a zero in any case. *)
Theorem GeneratePaths_degenerate_sigma NPaths NSteps T r S_0 s :
  (1 ≤ NPaths)%Z → valid_steps NSteps →
  is_finite (np_power (step_size T NSteps) 0.5) = true →
  (∀ i z, i < Z.to_nat NSteps → z ∈ used_col NPaths NSteps i →
          is_finite z = true) →
  ∃ res,
    (GeneratePaths NPaths NSteps T r 0 S_0 s).1 = inr res
    ∧ (∀ p j, p < Z.to_nat NPaths → j ≤ Z.to_nat NSteps →
         ∃ x, entry (paths_X res) p j = Some x
              ∧ same_value x (drift_path r (step_size T NSteps) S_0 j))
    ∧ (∀ p q j, p < Z.to_nat NPaths → q < Z.to_nat NPaths →
         j ≤ Z.to_nat NSteps →
         ∃ x y, entry (paths_X res) p j = Some x
                ∧ entry (paths_X res) q j = Some y ∧ same_value x y)
    ∧ (¬ negative_zero (np_log S_0) →
       ∀ p j, p < Z.to_nat NPaths → j ≤ Z.to_nat NSteps →
         entry (paths_X res) p j
         = Some (drift_path r (step_size T NSteps) S_0 j)).
Proof.
  intros HP HN Hpw Hfin. pose proof HN as [HN1 _].
  rewrite (GeneratePaths_run _ _ _ _ _ 0) by (done || lia).
  eexists. split; [done|]. cbn [result paths_X].
  assert (Hrow : ∀ p j, p < Z.to_nat NPaths → j ≤ Z.to_nat NSteps →
            ∃ x, entry (X_col NPaths NSteps r 0 0 (step_size T NSteps) S_0
                          <$> seq 0 (Z.to_nat (NSteps + 1))) p j = Some x
                 ∧ same_value x (drift_path r (step_size T NSteps) S_0 j)).
  { intros p j Hp Hj. rewrite entry_tabulate by lia.
    destruct (lookup_lt_is_Some_2
                (X_col NPaths NSteps r 0 0 (step_size T NSteps) S_0 j) p)
      as [x Hx]; [by rewrite length_X_col|].
    exists x. split; [done|].
    eapply X_col_drift; [done| |done].
    intros i z Hi. apply Hfin. lia. }
  split; [done|]. split.
  - intros p q j Hp Hq Hj.
    destruct (Hrow p j Hp Hj) as (x & Hx & Hxd).
    destruct (Hrow q j Hq Hj) as (y & Hy & Hyd).
    exists x, y. split; [done|]. split; [done|].
    eapply same_value_trans; [done|]. by apply same_value_sym.
  - intros Hlog p j Hp Hj. rewrite entry_tabulate by lia.
    destruct (lookup_lt_is_Some_2
                (X_col NPaths NSteps r 0 0 (step_size T NSteps) S_0 j) p)
      as [x Hx]; [by rewrite length_X_col|].
    rewrite Hx. f_equal.
    eapply (X_col_drift_exact NPaths NSteps r _ S_0 j p); [done| |done|done].
    intros i z Hi. apply Hfin. lia.
Qed.

(** C9 (amended).  For [NPaths >= 1] and [NSteps >= 1], when [sigma ** 2]
    does not overflow, [S] is the element-wise [np.exp] of [X]. *)
Theorem GeneratePaths_exponential NPaths NSteps T r sigma sigma2 S_0 s :
  (1 ≤ NPaths)%Z → valid_steps NSteps → float_pow2 sigma = inr sigma2 →
  ∃ res,
    (GeneratePaths NPaths NSteps T r sigma S_0 s).1 = inr res
    ∧ paths_S res = np_exp (paths_X res)
    ∧ ∀ p j, p < Z.to_nat NPaths → j ≤ Z.to_nat NSteps →
        ∃ x, entry (paths_X res) p j = Some x
             ∧ entry (paths_S res) p j = Some (npy_exp x).
Proof.
  intros HP HN Hpow. pose proof HN as [HN1 _].
  rewrite (GeneratePaths_run _ _ _ _ _ sigma2) by (done || lia).
  eexists. split; [done|]. split; [done|]. intros p j Hp Hj.
  cbn [result paths_X paths_S].
  destruct (lookup_lt_is_Some_2
              (X_col NPaths NSteps r sigma sigma2 (step_size T NSteps) S_0 j)
              p) as [x Hx]; [by rewrite length_X_col|].
  exists x. rewrite entry_np_exp, entry_tabulate, Hx by lia. done.
Qed.


(** C1 (amended).  [GeneratePaths] checks none of its arguments.  A negative
    [NPaths] or [NSteps] is a [ValueError] of the first array creation, and
    [NSteps = 0] is a [ZeroDivisionError] of [T / float(NSteps)], raised after
    the arrays are created.  With [NPaths = 0] and [NSteps >= 1] the call
    returns matrices without rows, and with [NPaths >= 1] and [NSteps >= 1]
    it returns, whatever [S_0] is, with [X[:,0] = np.log(S_0)]; in both cases
    provided that [sigma ** 2] does not overflow. *)
Theorem GeneratePaths_unchecked NPaths NSteps T r sigma sigma2 S_0 s :
  ((NPaths < 0 ∨ NSteps < 0)%Z →
   (GeneratePaths NPaths NSteps T r sigma S_0 s).1 = inl ValueError)
  ∧ ((0 ≤ NPaths)%Z → NSteps = 0%Z →
     (GeneratePaths NPaths NSteps T r sigma S_0 s).1 = inl ZeroDivisionError)
  ∧ (NPaths = 0%Z → valid_steps NSteps → float_pow2 sigma = inr sigma2 →
     ∃ res,
       (GeneratePaths NPaths NSteps T r sigma S_0 s).1 = inr res
       ∧ has_shape (paths_X res) 0 (Z.to_nat (NSteps + 1))
       ∧ has_shape (paths_S res) 0 (Z.to_nat (NSteps + 1)))
  ∧ ((1 ≤ NPaths)%Z → valid_steps NSteps →
     float_pow2 sigma = inr sigma2 →
     ∃ res,
       (GeneratePaths NPaths NSteps T r sigma S_0 s).1 = inr res
       ∧ ∀ p, p < Z.to_nat NPaths →
           entry (paths_X res) p 0 = Some (np_log S_0)).
Proof.
  split; [|split; [|split]].
  - intros Hneg. by rewrite GeneratePaths_run_negative.
  - intros HP ->. by rewrite GeneratePaths_run_zero_steps.
  - intros -> HN Hpow.
    rewrite (GeneratePaths_run _ _ _ _ _ sigma2) by (done || lia).
    eexists. split; [done|]. cbn [result paths_X paths_S]. split.
    + apply (has_shape_X 0).
    + apply has_shape_np_exp, (has_shape_X 0).
  - intros HP HN Hpow. pose proof HN as [HN1 _].
    rewrite (GeneratePaths_run _ _ _ _ _ sigma2) by (done || lia).
    eexists. split; [done|]. intros p Hp. cbn [result paths_X].
    rewrite entry_tabulate by lia. cbn [X_col].
    by rewrite lookup_replicate_2.
Qed.

(** ** Properties beyond the claims *)

(** X6.  Whatever its arguments and whatever the generator state before,
    a call leaves NumPy's global generator in the state reached from seed 72
    by drawing [NPaths * NSteps] variates; a call that fails on a negative
    size leaves it freshly seeded.  The caller's own generator state is
    lost in every case, also when the call raises. *)
Theorem GeneratePaths_generator_state NPaths NSteps T r sigma S_0 s :
  ((0 ≤ NPaths)%Z → (0 ≤ NSteps)%Z →
   (GeneratePaths NPaths NSteps T r sigma S_0 s).2
   = (gauss_n (Z.to_nat NPaths * Z.to_nat NSteps) (seed 72)).2)
  ∧ ((NPaths < 0 ∨ NSteps < 0)%Z →
     (GeneratePaths NPaths NSteps T r sigma S_0 s).2 = seed 72).
Proof.
  split.
  - intros HP HN. by rewrite GeneratePaths_state, run_np_random_normal.
  - intros Hneg. by rewrite GeneratePaths_run_negative.
Qed.

(** X7.  When [np.power(dt, 0.5)] is NaN, which is what NumPy returns for
    the negative [dt] of a negative horizon [T], the call still returns for
    [NPaths >= 1] and [NSteps >= 1] (provided that [sigma ** 2] does not
    overflow), and every column of [X] after the first holds NaN in every
    row; [S] holds [np.exp] of NaN there. *)
Theorem GeneratePaths_negative_horizon NPaths NSteps T r sigma sigma2 S_0 s :
  (1 ≤ NPaths)%Z → valid_steps NSteps → float_pow2 sigma = inr sigma2 →
  np_power (step_size T NSteps) 0.5 = nan →
  ∃ res,
    (GeneratePaths NPaths NSteps T r sigma S_0 s).1 = inr res
    ∧ ∀ p j, p < Z.to_nat NPaths → 1 ≤ j ≤ Z.to_nat NSteps →
        entry (paths_X res) p j = Some nan
        ∧ entry (paths_S res) p j = Some (npy_exp nan).
Proof.
  intros HP HN Hpow Hpw. pose proof HN as [HN1 _].
  rewrite (GeneratePaths_run _ _ _ _ _ sigma2) by (done || lia).
  eexists. split; [done|]. intros p j Hp Hj. cbn [result paths_X paths_S].
  rewrite entry_np_exp, entry_tabulate by lia.
  destruct j as [|j]; [lia|].
  rewrite X_col_nan_vol; [done| |done].
  unfold vol. by rewrite Hpw, mul_nan_r.
Qed.

Lemma run_getcol_last (m : matrix) n col s :
  length m = S n → m !! n = Some col →
  getcol_at m (-1) s = (inr col, s).
Proof.
  intros Hlen Hcol. unfold getcol_at, py_index. rewrite Hlen.
  rewrite decide_False, decide_True by lia.
  replace (Z.to_nat (Z.of_nat (S n) + -1)) with n by lia.
  by apply run_getitem.
Qed.

(** X10.  The column that [PlotDistribution] reads as [X[:,-1]] exists for
    [NPaths >= 1] and [NSteps >= 1], when [sigma ** 2] does not overflow: it
    is column [NSteps] of [X], it has one entry per path, and [S[:,-1]] is
    its element-wise [np.exp]. *)
Theorem GeneratePaths_terminal_column NPaths NSteps T r sigma sigma2 S_0 s :
  (1 ≤ NPaths)%Z → valid_steps NSteps → float_pow2 sigma = inr sigma2 →
  ∃ res xT,
    (GeneratePaths NPaths NSteps T r sigma S_0 s).1 = inr res
    ∧ (∀ s', getcol_at (paths_X res) (-1) s' = (inr xT, s'))
    ∧ (∀ s', getcol_at (paths_S res) (-1) s' = (inr (npy_exp <$> xT), s'))
    ∧ paths_X res !! Z.to_nat NSteps = Some xT
    ∧ length xT = Z.to_nat NPaths.
Proof.
  intros HP HN Hpow. pose proof HN as [HN1 _].
  rewrite (GeneratePaths_run _ _ _ _ _ sigma2) by (done || lia).
  assert (HS : Z.to_nat (NSteps + 1) = S (Z.to_nat NSteps)) by lia.
  do 2 eexists. split; [done|]. cbn [result paths_X paths_S].
  split; [|split; [|split]].
  - intros s'. apply (run_getcol_last _ (Z.to_nat NSteps)).
    + by rewrite length_tabulate.
    + by rewrite lookup_tabulate by lia.
  - intros s'. apply (run_getcol_last _ (Z.to_nat NSteps)).
    + unfold np_exp. by rewrite length_fmap, length_tabulate.
    + unfold np_exp. rewrite list_lookup_fmap, lookup_tabulate by lia. done.
  - by rewrite lookup_tabulate by lia.
  - apply length_X_col.
Qed.

(** X11.  With a single path nothing is standardized: the path advances
    by the variates in the order in which the generator, seeded with 72,
    yields them, each one scaled and shifted as [0.0 + 1.0 * g] by
    [np.random.normal]. *)
Theorem GeneratePaths_single_path NSteps T r sigma sigma2 S_0 s :
  valid_steps NSteps → float_pow2 sigma = inr sigma2 →
  ∃ res,
    (GeneratePaths 1 NSteps T r sigma S_0 s).1 = inr res
    ∧ entry (paths_X res) 0 0 = Some (np_log S_0)
    ∧ ∀ j, j < Z.to_nat NSteps →
        ∃ x, entry (paths_X res) 0 j = Some x
             ∧ entry (paths_X res) 0 (j + 1)
               = Some ((x + (r - 0.5 * sigma2) * (T / float_of_Z NSteps))
                       + (sigma * np_power (T / float_of_Z NSteps) 0.5)
                         * (0 + 1 * ((gauss_n (Z.to_nat NSteps) (seed 72)).1
                                       !!! j)))%float.
Proof.
  intros HN Hpow. pose proof HN as [HN1 _].
  rewrite (GeneratePaths_run _ _ _ _ _ sigma2) by (done || lia).
  eexists. split; [done|]. cbn [result paths_X]. split.
  { rewrite entry_tabulate by lia. done. }
  intros j Hj.
  destruct (X_col_step 1 NSteps r sigma sigma2 (step_size T NSteps) S_0 j 0)
    as (x & z & Hx & Hz & Hstep); [lia|].
  exists x. rewrite !entry_tabulate by lia.
  replace (j + 1) with (S j) by lia. split; [done|].
  rewrite Hstep. unfold used_col in Hz. rewrite decide_False in Hz by lia.
  unfold drawn_col, fill_col in Hz.
  replace (Z.to_nat 1 * Z.to_nat NSteps) with (Z.to_nat NSteps) in Hz by lia.
  change (Z.to_nat 1) with 1 in Hz. simpl in Hz. by injection Hz as <-.
Qed.

(** X12.  When [sigma ** 2] overflows, a call with [NPaths >= 0] and
    [NSteps >= 1] raises [OverflowError] in the first turn of the loop: the
    variates are drawn and the generator is left as by a call that returns,
    but no bundle is returned. *)
Theorem GeneratePaths_overflow NPaths NSteps T r sigma S_0 s :
  (0 ≤ NPaths)%Z → valid_steps NSteps →
  float_pow2 sigma = inl OverflowError →
  GeneratePaths NPaths NSteps T r sigma S_0 s
  = (inl OverflowError, rng_after NPaths NSteps).
Proof. intros HP HN Hpow. by apply GeneratePaths_run_raises. Qed.

(** X13.  For every argument tuple, valid or not, the outcome of a call (the
    bundle or the exception, and the generator state left behind) is the same
    from every generator state. *)
Theorem GeneratePaths_state_independent NPaths NSteps T r sigma S_0 s1 s2 :
  GeneratePaths NPaths NSteps T r sigma S_0 s1
  = GeneratePaths NPaths NSteps T r sigma S_0 s2.
Proof. apply GeneratePaths_reseeds. Qed.

Lemma float_pow2_raises iv e : float_pow2 iv = inl e → e = OverflowError.
Proof. unfold float_pow2. cbv zeta. repeat case_match; congruence. Qed.

(** X15.  For [NPaths >= 0] and [NSteps >= 1] a call has two outcomes only:
    it returns the bundle [result], or it raises [OverflowError] because
    [sigma ** 2] overflows.  No index or shape error can occur, and the
    generator is left in the same state in both cases. *)
Theorem GeneratePaths_outcomes NPaths NSteps T r sigma S_0 s :
  (0 ≤ NPaths)%Z → valid_steps NSteps →
  (∃ sigma2,
     float_pow2 sigma = inr sigma2
     ∧ GeneratePaths NPaths NSteps T r sigma S_0 s
       = (inr (result NPaths NSteps T r sigma sigma2 S_0),
          rng_after NPaths NSteps))
  ∨ (float_pow2 sigma = inl OverflowError
     ∧ GeneratePaths NPaths NSteps T r sigma S_0 s
       = (inl OverflowError, rng_after NPaths NSteps)).
Proof.
  intros HP HN. destruct (float_pow2 sigma) as [e|sigma2] eqn:Hpow.
  - right. pose proof (float_pow2_raises _ _ Hpow) as ->.
    split; [done|]. by apply GeneratePaths_run_raises.
  - left. exists sigma2. split; [done|]. by apply GeneratePaths_run.
Qed.

(** *** An initial level without a logarithm *)

Lemma X_col_nan_level NPaths NSteps r sigma sigma2 dt S_0 j p x :
  np_log S_0 = nan →
  X_col NPaths NSteps r sigma sigma2 dt S_0 j !! p = Some x → x = nan.
Proof.
  intros Hlog. revert x. induction j as [|j IH]; intros x Hx.
  - simpl in Hx. apply lookup_replicate in Hx as [-> _]. done.
  - assert (Hp : p < Z.to_nat NPaths).
    { apply lookup_lt_Some in Hx. by rewrite length_X_col in Hx. }
    destruct (X_col_step NPaths NSteps r sigma sigma2 dt S_0 j p Hp)
      as (x' & z & Hx' & _ & Hstep).
    rewrite Hstep in Hx. injection Hx as <-.
    by rewrite (IH x' Hx'), !add_nan_l.
Qed.

(** X16.  The time grid depends on [T] and [NSteps] only: two calls that
    agree on them and return have the same [time], whatever their other
    arguments are. *)
Theorem GeneratePaths_time_only NPaths NPaths' NSteps T r r' sigma sigma'
    sigma2 sigma2' S_0 S_0' s s' :
  (0 ≤ NPaths)%Z → (0 ≤ NPaths')%Z → valid_steps NSteps →
  float_pow2 sigma = inr sigma2 → float_pow2 sigma' = inr sigma2' →
  ∃ res res',
    (GeneratePaths NPaths NSteps T r sigma S_0 s).1 = inr res
    ∧ (GeneratePaths NPaths' NSteps T r' sigma' S_0' s').1 = inr res'
    ∧ paths_time res = paths_time res'.
Proof.
  intros HP HP' HN Hpow Hpow'.
  rewrite (GeneratePaths_run _ _ _ _ _ sigma2),
    (GeneratePaths_run _ _ _ _ _ sigma2') by done.
  do 2 eexists. split; [done|]. split; done.
Qed.

(** X17.  An initial level whose logarithm is NaN, as NumPy's is for
    [S_0 < 0], is not rejected: for [NPaths >= 1] and [NSteps >= 1], when
    [sigma ** 2] does not overflow, the call returns with NaN in every entry
    of [X], and [S] holds [np.exp] of NaN. *)
Theorem GeneratePaths_nan_level NPaths NSteps T r sigma sigma2 S_0 s :
  (1 ≤ NPaths)%Z → valid_steps NSteps → float_pow2 sigma = inr sigma2 →
  np_log S_0 = nan →
  ∃ res,
    (GeneratePaths NPaths NSteps T r sigma S_0 s).1 = inr res
    ∧ ∀ p j, p < Z.to_nat NPaths → j ≤ Z.to_nat NSteps →
        entry (paths_X res) p j = Some nan
        ∧ entry (paths_S res) p j = Some (npy_exp nan).
Proof.
  intros HP HN Hpow Hlog. pose proof HN as [HN1 _].
  rewrite (GeneratePaths_run _ _ _ _ _ sigma2) by (done || lia).
  eexists. split; [done|]. intros p j Hp Hj. cbn [result paths_X paths_S].
  rewrite entry_np_exp, entry_tabulate by lia.
  destruct (lookup_lt_is_Some_2
              (X_col NPaths NSteps r sigma sigma2 (step_size T NSteps) S_0 j)
              p) as [x Hx]; [by rewrite length_X_col|].
  rewrite Hx. by rewrite (X_col_nan_level _ _ _ _ _ _ _ _ _ _ Hlog Hx).
Qed.

End Properties.

(** ** The runs

    The call on the platform [glibc_mt19937], from a generator that was
    never seeded.  A matrix is written column after column: [X] with two
    paths is the list of the pairs [[X[0,j]; X[1,j]]]. *)

Section Runs.
#[local] Existing Instance glibc_mt19937.
#[local] Existing Instances M_ret M_bind.
Local Open Scope float_scope.

Lemma valid_steps_small n : (1 ≤ n ≤ 10)%Z → valid_steps n.
Proof. unfold valid_steps, max_exact_int. lia. Qed.

(** [0.4 ** 2] *)
Lemma float_pow2_04 : float_pow2 0.4 = inr 0.16000000000000003.
Proof. vm_compute. reflexivity. Qed.

(** [1e200 ** 2] *)
Lemma float_pow2_1e200 : float_pow2 1e200 = inl OverflowError.
Proof. vm_compute. reflexivity. Qed.

(** The run with two paths and three steps,
    [GeneratePaths(2, 3, 1.0, 0.05, 0.4, 100.0)]. *)
Lemma run_2_3 :
  GeneratePaths 2 3 1 0.05 0.4 100 unseeded
  = (inr (Paths
            [0; 0.3333333333333333; 0.6666666666666666; 1]
            [[4.605170185988092; 4.605170185988092];
             [4.364230078312242; 4.826110293663942];
             [4.123289970636392; 5.047050401339792];
             [3.882349862960542; 5.267990509015642]]
            [[100.00000000000004; 100.00000000000004];
             [78.5888693679235; 124.72487277019287];
             [61.76210388528541; 155.56293887540792];
             [48.538139141288106; 194.02567758992535]]),
     Some 6%nat).
Proof. vm_compute. reflexivity. Qed.

(** The run with two paths and ten steps,
    [GeneratePaths(2, 10, 1.0, 0.05, 0.4, 100.0)]. *)
Lemma run_2_10 :
  GeneratePaths 2 10 1 0.05 0.4 100 unseeded
  = (inr (Paths
            [0; 0.1; 0.2; 0.30000000000000004; 0.4; 0.5; 0.6; 0.7;
             0.7999999999999999; 0.8999999999999999; 0.9999999999999999]
            [[4.605170185988092; 4.605170185988092];
             [4.475679079581356; 4.728661292394827];
             [4.3461879731746205; 4.852152398801563];
             [4.216696866767885; 4.975643505208298];
             [4.34018797317462; 4.8461523988015625];
             [4.210696866767885; 4.969643505208298];
             [4.081205760361149; 5.093134611615033];
             [3.9517146539544137; 5.216625718021769];
             [4.075205760361149; 5.087134611615033];
             [3.9457146539544135; 5.2106257180217685];
             [3.8162235475476782; 5.334116824428504]]
            [[100.00000000000004; 100.00000000000004];
             [87.85424017802892; 113.14399419306861];
             [77.18367517258788; 128.01563421961137];
             [67.809131364355; 144.84200174765698];
             [76.72195965325605; 127.24984009405135];
             [67.403494703062; 143.9755516867025];
             [59.216828124813055; 162.8996898398411];
             [52.02449440658384; 184.3112156129165];
             [58.86259093035847; 161.92521803961634];
             [51.7132820109678; 183.2086592958571];
             [45.43231098185708; 207.2895948349033]]),
     Some 20%nat).
Proof. vm_compute. reflexivity. Qed.

(** The run with no volatility, [GeneratePaths(2, 2, 1.0, 0.05, 0.0, 100.0)]. *)
Lemma run_no_volatility :
  GeneratePaths 2 2 1 0.05 0 100 unseeded
  = (inr (Paths
            [0; 0.5; 1]
            [[4.605170185988092; 4.605170185988092];
             [4.630170185988092; 4.630170185988092];
             [4.6551701859880925; 4.6551701859880925]]
            [[100.00000000000004; 100.00000000000004];
             [102.53151205244296; 102.53151205244296];
             [105.12710963760253; 105.12710963760253]]),
     Some 4%nat).
Proof. vm_compute. reflexivity. Qed.

(** The run with a strongly negative rate,
    [GeneratePaths(2, 1, 1.0, -1e4, 0.0, 1.0)]. *)
Lemma run_underflow :
  GeneratePaths 2 1 1 (-10000) 0 1 unseeded
  = (inr (Paths
            [0; 1]
            [[0; 0];
             [(-10000); (-10000)]]
            [[1; 1];
             [0; 0]]),
     Some 2%nat).
Proof. vm_compute. reflexivity. Qed.

(** The run with no path, [GeneratePaths(0, 1, 1.0, 0.05, 0.4, 100.0)]. *)
Lemma run_no_paths :
  GeneratePaths 0 1 1 0.05 0.4 100 unseeded
  = (inr (Paths
            [0; 1]
            [[];
             []]
            [[];
             []]),
     Some 0%nat).
Proof. vm_compute. reflexivity. Qed.

(** The run with a negative initial level,
    [GeneratePaths(2, 1, 1.0, 0.05, 0.4, -1.0)]. *)
Lemma run_negative_level :
  GeneratePaths 2 1 1 0.05 0.4 (-1) unseeded
  = (inr (Paths
            [0; 1]
            [[nan; nan];
             [nan; nan]]
            [[nan; nan];
             [nan; nan]]),
     Some 2%nat).
Proof. vm_compute. reflexivity. Qed.

(** The run with a zero initial level,
    [GeneratePaths(2, 1, 1.0, 0.05, 0.4, 0.0)]. *)
Lemma run_zero_level :
  GeneratePaths 2 1 1 0.05 0.4 0 unseeded
  = (inr (Paths
            [0; 1]
            [[neg_infinity; neg_infinity];
             [neg_infinity; neg_infinity]]
            [[0; 0];
             [0; 0]]),
     Some 2%nat).
Proof. vm_compute. reflexivity. Qed.

(** The run with a single path, [GeneratePaths(1, 2, 1.0, 0.05, 0.4, 100.0)]. *)
Lemma run_single_path :
  GeneratePaths 1 2 1 0.05 0.4 100 unseeded
  = (inr (Paths
            [0; 0.5; 1]
            [[4.605170185988092];
             [4.680268458990449];
             [4.4730600252472215]]
            [[100.00000000000004];
             [107.79900830013811];
             [87.62444620232748]]),
     Some 2%nat).
Proof. vm_compute. reflexivity. Qed.

(** The run with a negative horizon,
    [GeneratePaths(2, 1, -1.0, 0.05, 0.4, 100.0)]. *)
Lemma run_negative_horizon :
  GeneratePaths 2 1 (-1) 0.05 0.4 100 unseeded
  = (inr (Paths
            [0; (-1)]
            [[4.605170185988092; 4.605170185988092];
             [nan; nan]]
            [[100.00000000000004; 100.00000000000004];
             [nan; nan]]),
     Some 2%nat).
Proof. vm_compute. reflexivity. Qed.

(** The run with the smallest positive horizon,
    [GeneratePaths(2, 2, 5e-324, 0.05, 0.4, 100.0)]. *)
Lemma run_tiny_horizon :
  GeneratePaths 2 2 5e-324 0.05 0.4 100 unseeded
  = (inr (Paths
            [0; 0; 0]
            [[4.605170185988092; 4.605170185988092];
             [4.605170185988092; 4.605170185988092];
             [4.605170185988092; 4.605170185988092]]
            [[100.00000000000004; 100.00000000000004];
             [100.00000000000004; 100.00000000000004];
             [100.00000000000004; 100.00000000000004]]),
     Some 4%nat).
Proof. vm_compute. reflexivity. Qed.

(** *** Where the claims fail *)

(** C1 fails on the code: a call without paths, a call with [S_0 = 0] and
    a call with [S_0 = -1] return instead of raising. *)
Lemma invalid_input_returned :
  (∃ res,
     (GeneratePaths 0 1 1 0.05 0.4 100 unseeded).1 = inr res
     ∧ paths_X res = [[]; []] ∧ paths_S res = [[]; []])
  ∧ (∃ res,
       (GeneratePaths 2 1 1 0.05 0.4 0 unseeded).1 = inr res
       ∧ paths_X res = [[neg_infinity; neg_infinity];
                        [neg_infinity; neg_infinity]])
  ∧ (∃ res,
       (GeneratePaths 2 1 1 0.05 0.4 (-1) unseeded).1 = inr res
       ∧ paths_X res = [[nan; nan]; [nan; nan]]).
Proof.
  rewrite run_no_paths, run_zero_level, run_negative_level.
  split; [|split]; eexists; (split; [reflexivity|]); done.
Qed.


(** C6 fails on the code: with [S_0 = 100], [S[0,0]] is
    100.00000000000004. *)
Lemma initial_level_not_restored :
  ∃ res,
    (GeneratePaths 2 3 1 0.05 0.4 100 unseeded).1 = inr res
    ∧ entry (paths_S res) 0 0 = Some 100.00000000000004
    ∧ (100.00000000000004 =? 100) = false.
Proof.
  rewrite run_2_3. eexists. split; [reflexivity|].
  split; vm_compute; reflexivity.
Qed.

(** C7 fails on the code: with [T = 1] and ten steps, [time[10]] is
    0.9999999999999999, and [time[3] - time[2]] is not [dt]; with the
    smallest positive [T] and two steps, [dt] rounds to 0 and the grid does
    not increase. *)
Lemma time_grid_not_exact :
  (∃ res,
     (GeneratePaths 2 10 1 0.05 0.4 100 unseeded).1 = inr res
     ∧ paths_time res !! 10%nat = Some 0.9999999999999999
     ∧ (0.9999999999999999 =? 1) = false
     ∧ paths_time res !! 2%nat = Some 0.2
     ∧ paths_time res !! 3%nat = Some 0.30000000000000004
     ∧ (0.30000000000000004 - 0.2 =? 1 / float_of_Z 10) = false)
  ∧ ∃ res,
      (GeneratePaths 2 2 5e-324 0.05 0.4 100 unseeded).1 = inr res
      ∧ (0 <? 5e-324) = true
      ∧ paths_time res = [0; 0; 0].
Proof.
  rewrite run_2_10, run_tiny_horizon.
  split; eexists; (split; [reflexivity|]); repeat split; vm_compute;
    reflexivity.
Qed.

(** C8 fails on the code: with [sigma = 0], two steps, [r = 0.05] and
    [S_0 = 100], [X[0,2]] is 4.6551701859880925 while
    [np.log(S_0) + r * time[2]] is 4.655170185988092. *)
Lemma drift_path_not_exact :
  ∃ res,
    (GeneratePaths 2 2 1 0.05 0 100 unseeded).1 = inr res
    ∧ paths_time res !! 2%nat = Some 1
    ∧ entry (paths_X res) 0 2 = Some 4.6551701859880925
    ∧ np_log 100 + 0.05 * 1 = 4.655170185988092
    ∧ (4.6551701859880925 =? 4.655170185988092) = false.
Proof.
  rewrite run_no_volatility. eexists. split; [reflexivity|].
  repeat split; vm_compute; reflexivity.
Qed.

(** C9 fails on the code: with [r = -1e4], [sigma = 0] and [S_0 = 1],
    [X[0,1]] is -10000 and [S[0,1]] is [exp(-10000)], which is 0. *)
Lemma underflow_not_positive :
  ∃ res,
    (GeneratePaths 2 1 1 (-10000) 0 1 unseeded).1 = inr res
    ∧ entry (paths_X res) 0 1 = Some (-10000)
    ∧ entry (paths_S res) 0 1 = Some 0
    ∧ (0 <? 0) = false.
Proof.
  rewrite run_underflow. eexists. split; [reflexivity|].
  repeat split; vm_compute; reflexivity.
Qed.

(** *** The theorems at concrete inputs *)

(** C5 on two paths and three steps. *)
Lemma GeneratePaths_shape_witness :
  ((1 ≤ 2)%Z ∧ valid_steps 3 ∧ float_pow2 0.4 = inr 0.16000000000000003)
  ∧ ∃ res,
      (GeneratePaths 2 3 1 0.05 0.4 100 unseeded).1 = inr res
      ∧ length (paths_time res) = 4%nat
      ∧ has_shape (paths_X res) 2 4
      ∧ has_shape (paths_S res) 2 4.
Proof.
  split; [split; [lia|split; [apply valid_steps_small; lia|]]|].
  - apply float_pow2_04.
  - apply (GeneratePaths_shape 2 3 1 0.05 0.4 0.16000000000000003 100 unseeded);
      [lia|apply valid_steps_small; lia|apply float_pow2_04].
Defined.

(** C2 on two paths and three steps. *)
Lemma GeneratePaths_advance_witness :
  ((1 ≤ 2)%Z ∧ valid_steps 3 ∧ float_pow2 0.4 = inr 0.16000000000000003)
  ∧ ∃ Zm Xm tm,
      (GeneratePaths_locals 2 3 1 0.05 0.4 100 unseeded).1 = inr (Zm, Xm, tm)
      ∧ (GeneratePaths 2 3 1 0.05 0.4 100 unseeded).1
        = inr (Paths tm Xm (np_exp Xm))
      ∧ ∀ i, (i < 3)%nat →
          Zm !! i = Some (if decide (2 > 1)%Z
                          then standardize (drawn_col 2 3 i)
                          else drawn_col 2 3 i)
          ∧ ∀ p, (p < 2)%nat →
              ∃ x z,
                entry Xm p i = Some x
                ∧ entry Zm p i = Some z
                ∧ entry Xm p (i + 1)
                  = Some ((x + (0.05 - 0.5 * 0.16000000000000003)
                               * (1 / float_of_Z 3))
                          + (0.4 * np_power (1 / float_of_Z 3) 0.5) * z).
Proof.
  split; [split; [lia|split; [apply valid_steps_small; lia|]]|].
  - apply float_pow2_04.
  - apply (GeneratePaths_advance 2 3 1 0.05 0.4 0.16000000000000003 100
             unseeded);
      [lia|apply valid_steps_small; lia|apply float_pow2_04].
Defined.

(** C4 on two paths and three steps. *)
Lemma GeneratePaths_deterministic_witness :
  ((1 ≤ 2)%Z ∧ valid_steps 3 ∧ float_pow2 0.4 = inr 0.16000000000000003)
  ∧ ∃ res,
      (∀ s, (GeneratePaths 2 3 1 0.05 0.4 100 s).1 = inr res)
      ∧ ∀ s,
          let s' := (GeneratePaths 2 3 1 0.05 0.4 100 s).2 in
          (GeneratePaths 2 3 1 0.05 0.4 100 s').1 = inr res.
Proof.
  split; [split; [lia|split; [apply valid_steps_small; lia|]]|].
  - apply float_pow2_04.
  - apply (GeneratePaths_deterministic 2 3 1 0.05 0.4 0.16000000000000003
             100);
      [lia|apply valid_steps_small; lia|apply float_pow2_04].
Defined.

(** C6 (amended) with [S_0 = 100]. *)
Lemma GeneratePaths_initial_witness :
  ((1 ≤ 2)%Z ∧ valid_steps 3 ∧ float_pow2 0.4 = inr 0.16000000000000003)
  ∧ ∃ res,
      (GeneratePaths 2 3 1 0.05 0.4 100 unseeded).1 = inr res
      ∧ ∀ p, (p < 2)%nat →
          entry (paths_X res) p 0 = Some (np_log 100)
          ∧ entry (paths_S res) p 0 = Some (npy_exp (np_log 100)).
Proof.
  split; [split; [lia|split; [apply valid_steps_small; lia|]]|].
  - apply float_pow2_04.
  - apply (GeneratePaths_initial 2 3 1 0.05 0.4 0.16000000000000003 100
             unseeded);
      [lia|apply valid_steps_small; lia|apply float_pow2_04].
Defined.

(** C7 (amended) on ten steps over the horizon 1. *)
Lemma GeneratePaths_time_grid_witness :
  ((1 ≤ 2)%Z ∧ valid_steps 10 ∧ float_pow2 0.4 = inr 0.16000000000000003)
  ∧ ∃ res,
      (GeneratePaths 2 10 1 0.05 0.4 100 unseeded).1 = inr res
      ∧ length (paths_time res) = 11%nat
      ∧ paths_time res !! 0%nat = Some 0
      ∧ ∀ j, (j < 10)%nat →
          ∃ a, paths_time res !! j = Some a
               ∧ paths_time res !! (j + 1)%nat
                 = Some (a + 1 / float_of_Z 10).
Proof.
  split; [split; [lia|split; [apply valid_steps_small; lia|]]|].
  - apply float_pow2_04.
  - apply (GeneratePaths_time_grid 2 10 1 0.05 0.4 0.16000000000000003 100
             unseeded);
      [lia|apply valid_steps_small; lia|apply float_pow2_04].
Defined.

(** The variates that line 29 reads in the run without volatility. *)
Lemma used_col_no_volatility i z :
  (i < 2)%nat → z ∈ used_col 2 2 i → is_finite z = true.
Proof.
  intros Hi Hz.
  assert (used_col 2 2 0 = [1; -1] ∧ used_col 2 2 1 = [-1; 1]) as [H0 H1]
    by (split; vm_compute; reflexivity).
  destruct i as [|[|i]]; [rewrite H0 in Hz|rewrite H1 in Hz|lia].
  - apply elem_of_cons in Hz as [->|Hz]; [done|].
    apply elem_of_cons in Hz as [->|Hz]; [done|].
    by apply elem_of_nil in Hz.
  - apply elem_of_cons in Hz as [->|Hz]; [done|].
    apply elem_of_cons in Hz as [->|Hz]; [done|].
    by apply elem_of_nil in Hz.
Qed.

(** C8 (amended) on two paths and two steps. *)
Lemma GeneratePaths_degenerate_sigma_witness :
  ((1 ≤ 2)%Z ∧ valid_steps 2
   ∧ is_finite (np_power (step_size 1 2) 0.5) = true
   ∧ (∀ i z, (i < Z.to_nat 2)%nat → z ∈ used_col 2 2 i →
             is_finite z = true)
   ∧ ¬ negative_zero (np_log 100))
  ∧ ∃ res,
      (GeneratePaths 2 2 1 0.05 0 100 unseeded).1 = inr res
      ∧ (∀ p j, (p < 2)%nat → (j ≤ 2)%nat →
           ∃ x, entry (paths_X res) p j = Some x
                ∧ same_value x (drift_path 0.05 (step_size 1 2) 100 j))
      ∧ (∀ p q j, (p < 2)%nat → (q < 2)%nat → (j ≤ 2)%nat →
           ∃ x y, entry (paths_X res) p j = Some x
                  ∧ entry (paths_X res) q j = Some y ∧ same_value x y)
      ∧ (¬ negative_zero (np_log 100) →
         ∀ p j, (p < 2)%nat → (j ≤ 2)%nat →
           entry (paths_X res) p j
           = Some (drift_path 0.05 (step_size 1 2) 100 j)).
Proof.
  split.
  - split; [lia|]. split; [apply valid_steps_small; lia|].
    split; [vm_compute; reflexivity|].
    split; [apply used_col_no_volatility|]. by vm_compute.
  - apply (GeneratePaths_degenerate_sigma 2 2 1 0.05 100 unseeded);
      [lia|apply valid_steps_small; lia|vm_compute; reflexivity|].
    apply used_col_no_volatility.
Defined.

(** C9 (amended) on the run that underflows. *)
Lemma GeneratePaths_exponential_witness :
  ((1 ≤ 2)%Z ∧ valid_steps 1 ∧ float_pow2 0 = inr 0)
  ∧ ∃ res,
      (GeneratePaths 2 1 1 (-10000) 0 1 unseeded).1 = inr res
      ∧ paths_S res = np_exp (paths_X res)
      ∧ ∀ p j, (p < 2)%nat → (j ≤ 1)%nat →
          ∃ x, entry (paths_X res) p j = Some x
               ∧ entry (paths_S res) p j = Some (npy_exp x).
Proof.
  split; [split; [lia|split; [apply valid_steps_small; lia|]]|].
  - apply float_pow2_zero.
  - apply (GeneratePaths_exponential 2 1 1 (-10000) 0 0 1 unseeded);
      [lia|apply valid_steps_small; lia|apply float_pow2_zero].
Defined.


(** C1 (amended): a negative size, no step, no path, and [S_0 = -1]. *)
Lemma GeneratePaths_unchecked_witness :
  (GeneratePaths (-1) 3 1 0.05 0.4 100 unseeded).1 = inl ValueError
  ∧ (GeneratePaths 2 0 1 0.05 0.4 100 unseeded).1 = inl ZeroDivisionError
  ∧ (∃ res,
       (GeneratePaths 0 3 1 0.05 0.4 100 unseeded).1 = inr res
       ∧ has_shape (paths_X res) 0 4
       ∧ has_shape (paths_S res) 0 4)
  ∧ ∃ res,
      (GeneratePaths 2 3 1 0.05 0.4 (-1) unseeded).1 = inr res
      ∧ ∀ p, (p < 2)%nat → entry (paths_X res) p 0 = Some (np_log (-1)).
Proof.
  split; [|split; [|split]].
  - apply (GeneratePaths_unchecked (-1) 3 1 0.05 0.4 0.16000000000000003
             100 unseeded). lia.
  - apply (GeneratePaths_unchecked 2 0 1 0.05 0.4 0.16000000000000003 100
             unseeded); [lia|done].
  - apply (GeneratePaths_unchecked 0 3 1 0.05 0.4 0.16000000000000003 100
             unseeded); [done|apply valid_steps_small; lia|apply float_pow2_04].
  - apply (GeneratePaths_unchecked 2 3 1 0.05 0.4 0.16000000000000003 (-1)
             unseeded); [lia|apply valid_steps_small; lia|apply float_pow2_04].
Defined.

(** *** The further properties at concrete inputs *)

(** X7 with [T = -1]: [np.power(-1.0, 0.5)] is NaN. *)
Lemma GeneratePaths_negative_horizon_witness :
  ((1 ≤ 2)%Z ∧ valid_steps 1 ∧ float_pow2 0.4 = inr 0.16000000000000003
   ∧ np_power (step_size (-1) 1) 0.5 = nan)
  ∧ ∃ res,
      (GeneratePaths 2 1 (-1) 0.05 0.4 100 unseeded).1 = inr res
      ∧ ∀ p j, (p < 2)%nat → (1 ≤ j ≤ 1)%nat →
          entry (paths_X res) p j = Some nan
          ∧ entry (paths_S res) p j = Some (npy_exp nan).
Proof.
  split.
  - split; [lia|]. split; [apply valid_steps_small; lia|].
    split; [apply float_pow2_04|vm_compute; reflexivity].
  - apply (GeneratePaths_negative_horizon 2 1 (-1) 0.05 0.4
             0.16000000000000003 100 unseeded);
      [lia|apply valid_steps_small; lia|apply float_pow2_04|].
    vm_compute. reflexivity.
Defined.

(** X10 on two paths and three steps. *)
Lemma GeneratePaths_terminal_column_witness :
  ((1 ≤ 2)%Z ∧ valid_steps 3 ∧ float_pow2 0.4 = inr 0.16000000000000003)
  ∧ ∃ res xT,
      (GeneratePaths 2 3 1 0.05 0.4 100 unseeded).1 = inr res
      ∧ (∀ s', getcol_at (paths_X res) (-1) s' = (inr xT, s'))
      ∧ (∀ s', getcol_at (paths_S res) (-1) s' = (inr (npy_exp <$> xT), s'))
      ∧ paths_X res !! 3%nat = Some xT
      ∧ length xT = 2%nat.
Proof.
  split; [split; [lia|split; [apply valid_steps_small; lia|]]|].
  - apply float_pow2_04.
  - apply (GeneratePaths_terminal_column 2 3 1 0.05 0.4 0.16000000000000003
             100 unseeded);
      [lia|apply valid_steps_small; lia|apply float_pow2_04].
Defined.

(** X11 on two steps. *)
Lemma GeneratePaths_single_path_witness :
  (valid_steps 2 ∧ float_pow2 0.4 = inr 0.16000000000000003)
  ∧ ∃ res,
      (GeneratePaths 1 2 1 0.05 0.4 100 unseeded).1 = inr res
      ∧ entry (paths_X res) 0 0 = Some (np_log 100)
      ∧ ∀ j, (j < 2)%nat →
          ∃ x, entry (paths_X res) 0 j = Some x
               ∧ entry (paths_X res) 0 (j + 1)
                 = Some ((x + (0.05 - 0.5 * 0.16000000000000003)
                              * (1 / float_of_Z 2))
                         + (0.4 * np_power (1 / float_of_Z 2) 0.5)
                           * (0 + 1 * ((gauss_n 2 (seed 72)).1 !!! j))).
Proof.
  split; [split; [apply valid_steps_small; lia|apply float_pow2_04]|].
  apply (GeneratePaths_single_path 2 1 0.05 0.4 0.16000000000000003 100
           unseeded); [apply valid_steps_small; lia|apply float_pow2_04].
Defined.

(** X12 with [sigma = 1e200]. *)
Lemma GeneratePaths_overflow_witness :
  ((0 ≤ 2)%Z ∧ valid_steps 1 ∧ float_pow2 1e200 = inl OverflowError)
  ∧ GeneratePaths 2 1 1 0.05 1e200 1 unseeded
    = (inl OverflowError, rng_after 2 1).
Proof.
  split; [split; [lia|split; [apply valid_steps_small; lia|]]|].
  - apply float_pow2_1e200.
  - apply (GeneratePaths_overflow 2 1 1 0.05 1e200 1 unseeded);
      [lia|apply valid_steps_small; lia|apply float_pow2_1e200].
Defined.

(** X14.  Line 28 on concrete columns, with NumPy's in-order sum.  Two equal
    entries have the standard deviation 0 and become NaN; the two different
    entries 0 and 1e-200 also have the standard deviation 0, their squared
    deviations underflowing, and become the two infinities; three entries
    equal to 0.1 have the mean 0.10000000000000002 and a standard deviation
    that is not 0, and all three become -1. *)
Theorem standardize_degenerate_columns :
  (np_std [0.5; 0.5] = 0 ∧ standardize [0.5; 0.5] = [nan; nan])
  ∧ (np_std [0; 1e-200] = 0
     ∧ standardize [0; 1e-200] = [neg_infinity; infinity])
  ∧ (np_mean [0.1; 0.1; 0.1] = 0.10000000000000002
     ∧ np_std [0.1; 0.1; 0.1] = 1.3877787807814457e-17
     ∧ standardize [0.1; 0.1; 0.1] = [-1; -1; -1]).
Proof. repeat split; vm_compute; reflexivity. Qed.

(** X15 on two paths and three steps. *)
Lemma GeneratePaths_outcomes_witness :
  ((0 ≤ 2)%Z ∧ valid_steps 3)
  ∧ ((∃ sigma2,
        float_pow2 0.4 = inr sigma2
        ∧ GeneratePaths 2 3 1 0.05 0.4 100 unseeded
          = (inr (result 2 3 1 0.05 0.4 sigma2 100), rng_after 2 3))
     ∨ (float_pow2 0.4 = inl OverflowError
        ∧ GeneratePaths 2 3 1 0.05 0.4 100 unseeded
          = (inl OverflowError, rng_after 2 3))).
Proof.
  split; [split; [lia|apply valid_steps_small; lia]|].
  apply (GeneratePaths_outcomes 2 3 1 0.05 0.4 100
           unseeded); [lia|apply valid_steps_small; lia].
Defined.

(** X16 on two runs over the horizon 1 in two steps. *)
Lemma GeneratePaths_time_only_witness :
  ((0 ≤ 2)%Z ∧ (0 ≤ 1)%Z ∧ valid_steps 2
   ∧ float_pow2 0 = inr 0 ∧ float_pow2 0.4 = inr 0.16000000000000003)
  ∧ ∃ res res',
      (GeneratePaths 2 2 1 0.05 0 100 unseeded).1 = inr res
      ∧ (GeneratePaths 1 2 1 0.05 0.4 100 unseeded).1 = inr res'
      ∧ paths_time res = paths_time res'.
Proof.
  split.
  - split; [lia|]. split; [lia|]. split; [apply valid_steps_small; lia|].
    split; [apply float_pow2_zero|apply float_pow2_04].
  - apply (GeneratePaths_time_only 2 1 2 1 0.05
             0.05 0 0.4 0 0.16000000000000003 100 100 unseeded unseeded);
      [lia|lia|apply valid_steps_small; lia|apply float_pow2_zero|
       apply float_pow2_04].
Defined.

(** X17 with [S_0 = -1]. *)
Lemma GeneratePaths_nan_level_witness :
  ((1 ≤ 2)%Z ∧ valid_steps 1 ∧ float_pow2 0.4 = inr 0.16000000000000003
   ∧ np_log (-1) = nan)
  ∧ ∃ res,
      (GeneratePaths 2 1 1 0.05 0.4 (-1) unseeded).1 = inr res
      ∧ ∀ p j, (p < 2)%nat → (j ≤ 1)%nat →
          entry (paths_X res) p j = Some nan
          ∧ entry (paths_S res) p j = Some (npy_exp nan).
Proof.
  split.
  - split; [lia|]. split; [apply valid_steps_small; lia|].
    split; [apply float_pow2_04|vm_compute; reflexivity].
  - apply (GeneratePaths_nan_level 2 1 1 0.05 0.4
             0.16000000000000003 (-1) unseeded);
      [lia|apply valid_steps_small; lia|apply float_pow2_04|].
    vm_compute. reflexivity.
Defined.

End Runs.
